(** * Earthstar: the in-memory document index and the crypto text layer

    A shallow embedding of [src/storage/storageMemory.ts] (class
    [StorageMemory]) and of the behaviour that [src/test/crypto.test.ts]
    pins down for the base32 codec and for author keypair generation.

    Conventions.
    - A JavaScript string is the list of its UTF-16 code units ([jsstring]);
      [<], [>] and the default [Array.prototype.sort] compare strings code
      unit by code unit, which is [strCompare].
    - A JavaScript number that the code uses as a count, a size or a time is
      an integer ([Z]).
    - A JavaScript object used as a dictionary is the association list of
      its own properties in property (insertion) order, under the prototype
      every [{}] has, [Object.prototype]: [o[k]] answers for an own property
      and for the names that prototype defines ([objGet]), and [o[k] = v]
      makes an own property of every name but [__proto__] ([objSet]).
    - The documents handed to [_upsertDocument] are validated by its caller:
      paths start with [/] and author addresses with [@], so no key of the
      index is an array index or a name of [Object.prototype], and property
      order is insertion order.  The [path] of a query and the key of a
      configuration entry are whatever string the caller passes.
    - A method is a function from the store to a result and the store it
      leaves behind; a thrown exception is the [Err] result. *)

From Stdlib Require Import ZArith NArith List Bool Lia String Ascii.
From Stdlib Require Import Permutation Sorted.
From Stdlib.Strings Require Byte.
Import ListNotations.

Local Open Scope Z_scope.

(** * Part I: the model *)

(* ====================================================================== *)
(** ** JavaScript strings *)

Definition jsstring := list N.

(** An ASCII literal as a JavaScript string. *)
Definition js (s : string) : jsstring :=
  map N_of_ascii (list_ascii_of_string s).

Definition strEq (a b : jsstring) : bool :=
  if list_eq_dec N.eq_dec a b then true else false.

(** Code-unit-wise lexicographic comparison: what [a < b], [a > b] and the
    default sort of an array of strings use. *)
Fixpoint strCompare (a b : jsstring) : comparison :=
  match a, b with
  | [], [] => Eq
  | [], _ :: _ => Lt
  | _ :: _, [] => Gt
  | x :: a', y :: b' =>
      match N.compare x y with
      | Eq => strCompare a' b'
      | c => c
      end
  end.

Definition strLt (a b : jsstring) : bool :=
  match strCompare a b with Lt => true | _ => false end.

(** [s.startsWith(prefix)] *)
Fixpoint startsWith (s prefix : jsstring) : bool :=
  match prefix, s with
  | [], _ => true
  | _ :: _, [] => false
  | p :: prefix', c :: s' => N.eqb c p && startsWith s' prefix'
  end.

Definition isHighSurrogate (c : N) : bool := (N.leb 55296 c && N.leb c 56319)%N.
Definition isLowSurrogate (c : N) : bool := (N.leb 56320 c && N.leb c 57343)%N.

(** [Buffer.byteLength(s, 'utf-8')]: the length of the UTF-8 encoding.  A
    surrogate pair is one 4-byte code point; a lone surrogate is encoded as
    U+FFFD (3 bytes). *)
Fixpoint byteLength (s : jsstring) : Z :=
  match s with
  | [] => 0
  | c :: rest =>
      if N.ltb c 128 then 1 + byteLength rest
      else if N.ltb c 2048 then 2 + byteLength rest
      else if isHighSurrogate c then
        match rest with
        | d :: rest' =>
            if isLowSurrogate d then 4 + byteLength rest'
            else 3 + byteLength rest
        | [] => 3
        end
      else 3 + byteLength rest
  end.

(* ====================================================================== *)
(** ** Arrays: sort and slice *)

Section Sort.
Context {A : Type}.
Variable cmp : A -> A -> comparison.

(** [Array.prototype.sort(cmp)] is a stable sort: elements that compare equal
    keep their order.  [cmp a b] is the sign of the comparator's number:
    [Lt] negative (a first), [Gt] positive (b first), [Eq] zero. *)
Fixpoint insertBy (x : A) (l : list A) : list A :=
  match l with
  | [] => [x]
  | y :: l' =>
      match cmp x y with
      | Gt => y :: insertBy x l'
      | _ => x :: l
      end
  end.

Definition sortBy (l : list A) : list A := fold_right insertBy [] l.

(** The element a sort puts first, computed without sorting: scanning from
    the right, a new element takes the lead unless it compares greater. *)
Fixpoint firstBy (l : list A) : option A :=
  match l with
  | [] => None
  | x :: l' =>
      match firstBy l' with
      | None => Some x
      | Some y => match cmp x y with Gt => Some y | _ => Some x end
      end
  end.

End Sort.

(** [arr.slice(0, n)] for an integer [n]: a negative [n] counts from the end. *)
Definition slice0 {A : Type} (n : Z) (l : list A) : list A :=
  if n <? 0 then firstn (Z.to_nat (Z.max 0 (Z.of_nat (List.length l) + n))) l
  else firstn (Z.to_nat n) l.

(* ====================================================================== *)
(** ** Objects used as dictionaries *)

Definition Obj (V : Type) := list (jsstring * V).

(** The property names of [Object.prototype]; none of them is enumerable. *)
Definition objectPrototypeNames : list jsstring :=
  map js
    ["constructor"; "__defineGetter__"; "__defineSetter__"; "hasOwnProperty";
     "__lookupGetter__"; "__lookupSetter__"; "isPrototypeOf";
     "propertyIsEnumerable"; "toString"; "valueOf"; "__proto__";
     "toLocaleString"]%string.

Definition inherited (k : jsstring) : bool :=
  existsb (strEq k) objectPrototypeNames.

Section Obj.
Context {V : Type}.

(** The own property [k] of [o], if it has one. *)
Fixpoint objOwn (k : jsstring) (o : Obj V) : option V :=
  match o with
  | [] => None
  | (k', v) :: o' => if strEq k' k then Some v else objOwn k o'
  end.

(** [o[k]]: the own property, else what [Object.prototype] has under that
    name (a function, or for [__proto__] the prototype itself), else
    [undefined]. *)
Inductive Lookup :=
| Own (v : V)
| Inherited
| Undefined.

Definition objGet (k : jsstring) (o : Obj V) : Lookup :=
  match objOwn k o with
  | Some v => Own v
  | None => if inherited k then Inherited else Undefined
  end.

(** [o[k] = v] for a name other than [__proto__]: an existing property keeps
    its place, a new one goes last. *)
Fixpoint objPut (k : jsstring) (v : V) (o : Obj V) : Obj V :=
  match o with
  | [] => [(k, v)]
  | (k', v') :: o' =>
      if strEq k' k then (k', v) :: o' else (k', v') :: objPut k v o'
  end.

(** [o[k] = v].  Under the name [__proto__] the assignment goes to the
    setter [Object.prototype] has there and makes no own property. *)
Definition objSet (k : jsstring) (v : V) (o : Obj V) : Obj V :=
  if strEq k (js "__proto__") then o else objPut k v o.

(** [delete o[k]] *)
Fixpoint objDelete (k : jsstring) (o : Obj V) : Obj V :=
  match o with
  | [] => []
  | (k', v') :: o' =>
      if strEq k' k then objDelete k o' else (k', v') :: objDelete k o'
  end.

Definition objKeys (o : Obj V) : list jsstring := map fst o.
Definition objValues (o : Obj V) : list V := map snd o.

End Obj.

Arguments Lookup V : clear implicits.
Arguments Inherited {V}.
Arguments Undefined {V}.

(* ====================================================================== *)
(** ** Documents and queries *)

(** Modelled from the spec: the [Document] type of [src/util/types.ts], which
    is not among the sources; the fields are those of the spec's data model. *)
Record Document := mkDocument {
  path : jsstring;
  author : jsstring;
  content : jsstring;
  contentHash : jsstring;
  timestamp : Z;
  deleteAfter : option Z;      (* [null] or a time in microseconds *)
  signature : jsstring
}.

(** Modelled from the spec: the [Query] type of [src/storage/query.ts], which
    is not among the sources.  [storageMemory.ts] itself reads [path],
    [pathStartsWith], [history], [limit] and [limitBytes]; the other fields
    are the selection predicates the spec lists, read only by
    [queryMatchesDoc]. *)
Record Query := mkQuery {
  qPath : option jsstring;
  pathStartsWith : option jsstring;
  qAuthor : option jsstring;
  timestampLower : option Z;
  timestampUpper : option Z;
  contentLengthLower : option Z;
  contentLengthUpper : option Z;
  continueAfter : option (jsstring * jsstring);
  history : option jsstring;
  limit : option Z;
  limitBytes : option Z
}.

Definition emptyQuery : Query :=
  mkQuery None None None None None None None None None None None.

Definition withHistory (h : option jsstring) (q : Query) : Query :=
  mkQuery (qPath q) (pathStartsWith q) (qAuthor q) (timestampLower q)
          (timestampUpper q) (contentLengthLower q) (contentLengthUpper q)
          (continueAfter q) h (limit q) (limitBytes q).

(** Modelled from the spec: [cleanUpQuery] of [src/storage/query.ts]
    (it fills the [history] default to 'all', leaves unset numeric bounds
    unset, and is a no-op on an already-normalized query). *)
Definition cleanUpQuery (q : Query) : Query :=
  match history q with
  | Some _ => q
  | None => withHistory (Some (js "all")) q
  end.

(** Modelled from the spec: [documentIsExpired] of [src/storage/query.ts]
    (true iff [doc.deleteAfter] is set and [now > doc.deleteAfter]). *)
Definition documentIsExpired (doc : Document) (now : Z) : bool :=
  match deleteAfter doc with
  | Some t => t <? now
  | None => false
  end.

(** Modelled from the spec: [sortLatestFirst] of [src/storage/query.ts]
    (primary key: timestamp descending; tie-break: signature string
    descending, lexicographic). *)
Definition sortLatestFirst (a b : Document) : comparison :=
  match Z.compare (timestamp b) (timestamp a) with
  | Eq => strCompare (signature b) (signature a)
  | c => c
  end.

(** Modelled from the spec: [sortPathAscAuthorAsc] of [src/storage/query.ts]
    (primary key path ascending, secondary author ascending). *)
Definition sortPathAscAuthorAsc (a b : Document) : comparison :=
  match strCompare (path a) (path b) with
  | Eq => strCompare (author a) (author b)
  | c => c
  end.

(* ====================================================================== *)
(** ** The store and its methods ([src/storage/storageMemory.ts]) *)

Inductive Error :=
| StorageIsClosedError
| ValidationError
| TypeError.

Inductive Result (A : Type) :=
| Ok (a : A)
| Err (e : Error).
Arguments Ok {A} a.
Arguments Err {A} e.

(** The fields of [StorageMemory].  [_docs] is [{ path: { author: document }}].
    [_isClosed] and [_now] are inherited from [StorageBase]. *)
Record StorageMemory := mkStorage {
  _docs : Obj (Obj Document);
  _config : Obj jsstring;
  _isClosed : bool;
  _now : option Z
}.

(** A method: it returns or throws, and leaves a store behind. *)
Definition M (A : Type) := StorageMemory -> Result A * StorageMemory.

Definition ret {A} (a : A) : M A := fun st => (Ok a, st).
Definition throw {A} (e : Error) : M A := fun st => (Err e, st).
Definition bind {A B} (m : M A) (k : A -> M B) : M B :=
  fun st =>
    match m st with
    | (Ok a, st') => k a st'
    | (Err e, st') => (Err e, st')
    end.
Definition gets {A} (f : StorageMemory -> A) : M A := fun st => (Ok (f st), st).
Definition modify (f : StorageMemory -> StorageMemory) : M unit :=
  fun st => (Ok tt, f st).

Notation "x <- m ;; k" := (bind m (fun x => k))
  (at level 61, m at next level, right associativity).
Notation "m ;;; k" := (bind m (fun _ => k))
  (at level 61, right associativity).

Definition set_docs (d : Obj (Obj Document)) (st : StorageMemory) : StorageMemory :=
  mkStorage d (_config st) (_isClosed st) (_now st).
Definition set_config (c : Obj jsstring) (st : StorageMemory) : StorageMemory :=
  mkStorage (_docs st) c (_isClosed st) (_now st).
Definition set_isClosed (b : bool) (st : StorageMemory) : StorageMemory :=
  mkStorage (_docs st) (_config st) b (_now st).

(** Modelled from the spec: [StorageBase._assertNotClosed] of
    [src/storage/storageBase.ts], which is not among the sources (every
    operation must detect closed state and fail fast). *)
Definition _assertNotClosed : M unit :=
  fun st => if _isClosed st then (Err StorageIsClosedError, st) else (Ok tt, st).

(** [this._now || (Date.now() * 1000)]; [clock] is what [Date.now()] returns.
    A [_now] of [null] or [0] is falsy. *)
Definition currentTime (clock : Z) (st : StorageMemory) : Z :=
  match _now st with
  | Some n => if n =? 0 then clock * 1000 else n
  | None => clock * 1000
  end.

(** The [limitBytes] loop of [documents] (lines 131-147): the index [ii] at
    which the loop cuts [results], if it does. *)
Fixpoint limitBytesCut (limitBytes bytes : Z) (ii : nat) (rest : list Document)
  : option nat :=
  match rest with
  | [] => None
  | doc :: rest' =>
      let len := byteLength (content doc) in
      let bytes := bytes + len in
      if (bytes >? limitBytes) || ((bytes =? limitBytes) && (len =? 0))
      then Some ii
      else limitBytesCut limitBytes bytes (S ii) rest'
  end.

Definition applyLimitBytes (limitBytes : Z) (results : list Document) : list Document :=
  match limitBytesCut limitBytes 0 0 results with
  | Some ii => firstn ii results
  | None => results
  end.

(** [x === s] for a field [x] that may be [undefined]. *)
Definition strEq' (x : option jsstring) (s : jsstring) : bool :=
  match x with
  | Some v => strEq v s
  | None => false
  end.

(** [x === n] for a number field that may be [undefined]. *)
Definition optZeq (x : option Z) (n : Z) : bool :=
  match x with
  | Some v => v =? n
  | None => false
  end.

Definition isSome {A} (x : option A) : bool :=
  match x with
  | Some _ => true
  | None => false
  end.

(** [limit !== undefined && results.length >= limit] *)
Definition limitReached (limit : option Z) (results : list Document) : bool :=
  match limit with
  | Some n => n <=? Z.of_nat (List.length results)
  | None => false
  end.

Section Methods.

(** [queryMatchesDoc] is imported from [src/storage/query.ts], which is not
    among the sources.  Nothing below depends on how it decides. *)
Variable queryMatchesDoc : Query -> Document -> bool.

Definition setConfig (key content : jsstring) : M unit :=
  modify (fun st => set_config (objSet key content (_config st)) st).

(** The declared return type is [string | undefined]; under a name of
    [Object.prototype] that is not a key the value is neither. *)
Definition getConfig (key : jsstring) : M (Lookup jsstring) :=
  gets (fun st => objGet key (_config st)).

Definition deleteConfig (key : jsstring) : M unit :=
  modify (fun st => set_config (objDelete key (_config st)) st).

Definition deleteAllConfig : M unit :=
  modify (set_config []).

(** What the [pathStartsWith] test at the top of the loop body decides. *)
Inductive Scan := Visit | Continue | Break.

Definition prefixScan (query : Query) (p : jsstring) : Scan :=
  match pathStartsWith query with
  | Some prefix =>
      if negb (startsWith p prefix) then
        if strLt p prefix then Continue else Break
      else Visit
  | None => Visit
  end.

(** The filter of line 111. *)
Definition keepDoc (query : Query) (now : Z) (doc : Document) : bool :=
  queryMatchesDoc query doc &&
  match deleteAfter doc with
  | None => true
  | Some t => now <=? t
  end.

(** Lines 93-111: the documents one path contributes.  [docsThisPath[0]] of
    an empty array is [undefined], and the filter of line 111 throws on it
    ([queryMatchesDoc] or [doc.deleteAfter] reads a field of [undefined]).
    No path of a store built by the methods has an empty slot table (see
    [wfStore]); a [query.path] that names a member of [Object.prototype]
    has. *)
Definition docsForPath (query : Query) (now : Z) (pathSlots : Obj Document)
  : Result (list Document) :=
  let docsThisPath := objValues pathSlots in
  let selected :=
    if strEq' (history query) (js "latest") then
      match sortBy sortLatestFirst docsThisPath with
      | doc0 :: _ => Ok [doc0]
      | [] => Err TypeError
      end
    else if strEq' (history query) (js "all") then Ok docsThisPath
    else Err ValidationError in
  match selected with
  | Ok docsThisPath => Ok (filter (keepDoc query now) docsThisPath)
  | Err e => Err e
  end.

(** Line 93: [this._docs[path]], as [Object.values] of line 94 sees it: the
    slot table of the path, or a member of [Object.prototype], which has no
    enumerable property of its own; [None] is [undefined]. *)
Definition slotsAt (p : jsstring) (docs : Obj (Obj Document)) : option (Obj Document) :=
  match objGet p docs with
  | Own pathSlots => Some pathSlots
  | Inherited => Some []
  | Undefined => None
  end.

(** The loop of lines 73-121 over [pathsToConsider], with [results] so far. *)
Fixpoint pathLoop (query : Query) (now : Z) (docs : Obj (Obj Document))
    (pathsToConsider : list jsstring) (results : list Document)
  : Result (list Document) :=
  match pathsToConsider with
  | [] => Ok results
  | p :: rest =>
      match prefixScan query p with
      | Continue => pathLoop query now docs rest results
      | Break => Ok results
      | Visit =>
          match slotsAt p docs with
          | None => Err TypeError
          | Some pathSlots =>
              match docsForPath query now pathSlots with
              | Err e => Err e
              | Ok docsThisPath =>
                  let results := results ++ docsThisPath in
                  if limitReached (limit query) results then Ok results
                  else pathLoop query now docs rest results
              end
          end
      end
  end.

(** Lines 56-71: which paths to consider; [None] is the early [return []]. *)
Definition pathsToConsider (query : Query) (docs : Obj (Obj Document))
  : option (list jsstring) :=
  let paths :=
    match qPath query with
    | Some p =>
        match objGet p docs with
        | Undefined => None
        | _ => Some [p]
        end
    | None => Some (objKeys docs)
    end in
  match paths with
  | None => None
  | Some paths =>
      if isSome (pathStartsWith query) || isSome (limit query)
      then Some (sortBy strCompare paths)
      else Some paths
  end.

(** Lines 53-129: the results before [limitBytes] is applied. *)
Definition documentsSorted (query : Query) (now : Z) (docs : Obj (Obj Document))
  : Result (list Document) :=
  match pathsToConsider query docs with
  | None => Ok []
  | Some paths =>
      match pathLoop query now docs paths [] with
      | Err e => Err e
      | Ok results =>
          let results := sortBy sortPathAscAuthorAsc results in
          Ok (match limit query with
              | Some n => slice0 n results
              | None => results
              end)
      end
  end.

Definition zeroLimit (query : Query) : bool :=
  optZeq (limit query) 0 || optZeq (limitBytes query) 0.

Definition documents (clock : Z) (q : Query) : M (list Document) :=
  _assertNotClosed ;;;
  let query := cleanUpQuery q in
  if zeroLimit query then ret [] else
  now <- gets (currentTime clock) ;;
  docs <- gets _docs ;;
  match documentsSorted query now docs with
  | Err e => throw e
  | Ok results =>
      ret (match limitBytes query with
           | Some n => applyLimitBytes n results
           | None => results
           end)
  end.

(** [Object.freeze(doc)] changes nothing here: a [Document] is a value.
    [doc.path] and [doc.author] are keys of a validated document, so
    [this._docs[doc.path]] is the own property or [undefined], and the two
    assignments make own properties. *)
Definition _upsertDocument (doc : Document) : M unit :=
  _assertNotClosed ;;;
  modify (fun st =>
    let slots :=
      match objOwn (path doc) (_docs st) with
      | Some slots => slots
      | None => []
      end in
    let slots := objPut (author doc) doc slots in
    set_docs (objPut (path doc) slots (_docs st)) st).

(** The inner loop of [_filterDocs]: [for (let author in slots)].  The loop
    visits the own properties: [Object.prototype] has nothing enumerable to
    add to them, and under one of its own keys [slots[author]] is the own
    property. *)
Definition filterSlots (shouldKeep : Document -> bool) (slots : Obj Document)
  : Obj Document :=
  fold_left
    (fun slots author =>
       match objOwn author slots with
       | Some doc => if negb (shouldKeep doc) then objDelete author slots else slots
       | None => slots
       end)
    (objKeys slots) slots.

(** The outer loop: [slots] aliases [this._docs[path]], so what the inner
    loop deletes is deleted in the store. *)
Definition filterPaths (shouldKeep : Document -> bool) (docs : Obj (Obj Document))
  : Obj (Obj Document) :=
  fold_left
    (fun docs p =>
       match objOwn p docs with
       | Some slots =>
           let slots := filterSlots shouldKeep slots in
           let docs := objPut p slots docs in
           if (List.length (objKeys slots) =? 0)%nat then objDelete p docs else docs
       | None => docs
       end)
    (objKeys docs) docs.

Definition _filterDocs (shouldKeep : Document -> bool) : M unit :=
  _assertNotClosed ;;;
  modify (fun st => set_docs (filterPaths shouldKeep (_docs st)) st).

Definition forgetDocuments (q : Query) : M unit :=
  _assertNotClosed ;;;
  let query := cleanUpQuery q in
  if zeroLimit query then ret tt else
  if negb (strEq' (history query) (js "all")) then throw ValidationError else
  _filterDocs (fun doc => negb (queryMatchesDoc query doc)).

Definition discardExpiredDocuments (clock : Z) : M unit :=
  _assertNotClosed ;;;
  now <- gets (currentTime clock) ;;
  _filterDocs (fun doc => negb (documentIsExpired doc now)).

Definition _close : M unit :=
  modify (set_docs []) ;;;
  modify (set_config []).

(** Modelled from the spec: [StorageBase.close] of
    [src/storage/storageBase.ts], which is not among the sources: it marks
    the store closed and lets the subclass release its contents. *)
Definition close : M unit :=
  modify (set_isClosed true) ;;;
  _close.

End Methods.

Definition emptyStore : StorageMemory := mkStorage [] [] false None.

(* ====================================================================== *)
(** ** The base32 codec ([src/crypto/encoding.ts], not among the sources) *)

Definition N_of_bool (b : bool) : N := if b then 1%N else 0%N.

(** The value of a base32 digit, most significant bit first. *)
Definition digitOfBits (b4 b3 b2 b1 b0 : bool) : N :=
  (16 * N_of_bool b4 + 8 * N_of_bool b3 + 4 * N_of_bool b2
   + 2 * N_of_bool b1 + N_of_bool b0)%N.

Definition bitsOfDigit (v : N) : list bool :=
  [N.testbit v 4; N.testbit v 3; N.testbit v 2; N.testbit v 1; N.testbit v 0].

(** The lowercase RFC 4648 alphabet: [a]-[z] are 0-25, [2]-[7] are 26-31. *)
Definition encodeChar (v : N) : N :=
  if N.ltb v 26 then (97 + v)%N else (24 + v)%N.

Definition decodeChar (c : N) : option N :=
  if N.leb 97 c && N.leb c 122 then Some (c - 97)%N
  else if N.leb 50 c && N.leb c 55 then Some (c - 24)%N
  else None.

Definition bitsOfByte (b : Byte.byte) : list bool :=
  let '(b0, (b1, (b2, (b3, (b4, (b5, (b6, b7))))))) := Byte.to_bits b in
  [b7; b6; b5; b4; b3; b2; b1; b0].

Definition byteOfBits (b7 b6 b5 b4 b3 b2 b1 b0 : bool) : Byte.byte :=
  Byte.of_bits (b0, (b1, (b2, (b3, (b4, (b5, (b6, b7))))))).

Definition bitsOfBytes (buf : list Byte.byte) : list bool :=
  flat_map bitsOfByte buf.

(** Five bits a digit; a last group of fewer bits is filled with zeros. *)
Fixpoint encodeBits (bits : list bool) : jsstring :=
  match bits with
  | [] => []
  | b4 :: b3 :: b2 :: b1 :: b0 :: rest =>
      encodeChar (digitOfBits b4 b3 b2 b1 b0) :: encodeBits rest
  | [b4; b3; b2; b1] => [encodeChar (digitOfBits b4 b3 b2 b1 false)]
  | [b4; b3; b2] => [encodeChar (digitOfBits b4 b3 b2 false false)]
  | [b4; b3] => [encodeChar (digitOfBits b4 b3 false false false)]
  | [b4] => [encodeChar (digitOfBits b4 false false false false)]
  end.

(** The bits of a run of digits; [None] at a character outside the alphabet. *)
Fixpoint decodeChars (s : jsstring) : option (list bool) :=
  match s with
  | [] => Some []
  | c :: rest =>
      match decodeChar c, decodeChars rest with
      | Some v, Some bits => Some (bitsOfDigit v ++ bits)
      | _, _ => None
      end
  end.

(** Whole bytes off the front, and the bits left over. *)
Fixpoint bytesOfBits (bits : list bool) : list Byte.byte * list bool :=
  match bits with
  | b7 :: b6 :: b5 :: b4 :: b3 :: b2 :: b1 :: b0 :: rest =>
      let (bytes, leftover) := bytesOfBits rest in
      (byteOfBits b7 b6 b5 b4 b3 b2 b1 b0 :: bytes, leftover)
  | leftover => ([], leftover)
  end.

(** The format tag: the letter [b]. *)
Definition tag : N := 98%N.

(** Modelled from the spec: [encodeBufferToBase32] of [src/crypto/encoding.ts]
    (the tag [b], then lowercase RFC 4648 base32 without padding). *)
Definition encodeBufferToBase32 (buf : list Byte.byte) : jsstring :=
  tag :: encodeBits (bitsOfBytes buf).

(** Modelled from the spec: [decodeBase32ToBuffer] of [src/crypto/encoding.ts].
    It fails ([None]) on empty input, on a missing or different tag, on any
    character outside the alphabet, and when the digits do not end a whole
    number of bytes with a zero-filled remainder shorter than a digit. *)
Definition decodeBase32ToBuffer (s : jsstring) : option (list Byte.byte) :=
  match s with
  | [] => None
  | t :: digits =>
      if N.eqb t tag then
        match decodeChars digits with
        | Some bits =>
            let (bytes, leftover) := bytesOfBits bits in
            if (Nat.ltb (List.length leftover) 5) && forallb negb leftover
            then Some bytes
            else None
        | None => None
        end
      else None
  end.

(* ====================================================================== *)
(** ** Author keypairs ([src/crypto/crypto.ts], not among the sources) *)

Record AuthorKeypair := mkAuthorKeypair {
  address : jsstring;
  secret : jsstring
}.

(** A freshly generated signing keypair, as raw bytes. *)
Record KeypairBuffers := mkKeypairBuffers {
  pubkeyBuffer : list Byte.byte;
  secretBuffer : list Byte.byte
}.

Definition isLowerAlpha (c : N) : bool := N.leb 97 c && N.leb c 122.

Definition isErr {A} (r : Result A) : bool :=
  match r with
  | Err _ => true
  | Ok _ => false
  end.

(** The test [generateAuthorKeypair] of [src/test/crypto.test.ts]
    (lines 104-124), as a check of any implementation [generate]: the six
    shortnames that must give an error, and [ok99], which must give a
    keypair whose address starts with [@ok99.] and whose secret does not
    start with [@]. *)
Definition generateAuthorKeypair_test
    (generate : jsstring -> Result AuthorKeypair) : bool :=
  isErr (generate (js "abc")) &&
  isErr (generate (js "abcde")) &&
  isErr (generate (js "TEST")) &&
  isErr (generate (js "1234")) &&
  isErr (generate (js "----")) &&
  isErr (generate []) &&
  match generate (js "ok99") with
  | Err _ => false
  | Ok keypair =>
      match address keypair with
      | c :: _ => N.eqb c 64
      | [] => false
      end &&
      startsWith (address keypair) (js "@ok99.") &&
      match secret keypair with
      | c :: _ => negb (N.eqb c 64)
      | [] => true
      end
  end.

Definition encodeAuthorKeypair (shortname : jsstring) (buffers : KeypairBuffers)
  : AuthorKeypair :=
  mkAuthorKeypair
    (js "@" ++ shortname ++ js "." ++ encodeBufferToBase32 (pubkeyBuffer buffers))
    (encodeBufferToBase32 (secretBuffer buffers)).

(** Modelled from the spec: [generateAuthorKeypair] of [src/crypto/crypto.ts],
    which is not among the sources: it validates the shortname and fails
    with a validation error, or else returns the address [@] + shortname +
    [.] + the encoded public key and the encoded private key as the secret.
    The fresh key material is an argument, and so is the shortname rule:
    the spec words it as [fourLowercaseLetters], below, and the test in
    [src/test/crypto.test.ts] contradicts that wording. *)
Definition generateAuthorKeypair (validShortname : jsstring -> bool)
    (fresh : KeypairBuffers) (shortname : jsstring) : Result AuthorKeypair :=
  if validShortname shortname then Ok (encodeAuthorKeypair shortname fresh)
  else Err ValidationError.

(** Modelled from the spec: the shortname rule in the spec's words, exactly
    4 characters, all lowercase ASCII letters. *)
Definition fourLowercaseLetters (shortname : jsstring) : bool :=
  Nat.eqb (List.length shortname) 4 && forallb isLowerAlpha shortname.

(* ====================================================================== *)
(** ** The vocabulary of the properties *)

(** What the comparator decides, in the spec's words: [a] is not ranked
    after [b] iff [a] is newer, or as new with a signature that is not
    smaller. *)
Definition ranksNoLater (a b : Document) : Prop :=
  timestamp b < timestamp a \/
  (timestamp b = timestamp a /\ strCompare (signature b) (signature a) <> Gt).

(** What [sortPathAscAuthorAsc] decides: [a] is not placed after [b] iff its
    path is smaller, or the paths are equal and its author is not greater. *)
Definition pathAuthorLe (a b : Document) : Prop :=
  strCompare (path a) (path b) = Lt \/
  (path a = path b /\ strCompare (author a) (author b) <> Gt).

(** The document [history: 'latest'] retains for a path: the first element
    of the slots sorted by [sortLatestFirst]. *)
Definition latestOf (slots : Obj Document) : option Document :=
  hd_error (sortBy sortLatestFirst (objValues slots)).

(** What [_upsertDocument] and [_filterDocs] maintain: keys are unique (they
    are properties of an object), no path keeps an empty slot table, and a
    document sits under its own path and author. *)
Definition wfSlots (p : jsstring) (slots : Obj Document) : Prop :=
  slots <> [] /\ NoDup (objKeys slots) /\
  forall a d, In (a, d) slots -> path d = p /\ author d = a.

Definition wfDocs (docs : Obj (Obj Document)) : Prop :=
  NoDup (objKeys docs) /\ forall p slots, In (p, slots) docs -> wfSlots p slots.

Definition wfStore (st : StorageMemory) : Prop := wfDocs (_docs st).

(** The document the index holds under path [p] and author [a]: the own
    property [a] of the own property [p] of [_docs], if there is one. *)
Definition lookupDoc (p a : jsstring) (docs : Obj (Obj Document)) : option Document :=
  match objOwn p docs with
  | Some slots => objOwn a slots
  | None => None
  end.

(** The slots whose document is to be kept. *)
Definition keptSlots (shouldKeep : Document -> bool) (slots : Obj Document)
  : Obj Document :=
  filter (fun kv => shouldKeep (snd kv)) slots.

(** What the scan of [_filterDocs] leaves: per path the kept slots, and no
    path whose slots are all gone. *)
Fixpoint keptPaths (shouldKeep : Document -> bool) (docs : Obj (Obj Document))
  : Obj (Obj Document) :=
  match docs with
  | [] => []
  | (p, slots) :: docs' =>
      match keptSlots shouldKeep slots with
      | [] => keptPaths shouldKeep docs'
      | s => (p, s) :: keptPaths shouldKeep docs'
      end
  end.

(** The rule in the spec's words.  [bytesOfFirst n l] is the cumulative
    UTF-8 size of the contents of the first [n] documents; document [i]
    cuts the result when including it would exceed the budget, or when it is
    empty and would land exactly on the budget. *)
Definition sumBytes (l : list Document) : Z :=
  fold_right (fun d acc => byteLength (content d) + acc) 0 l.

Definition bytesOfFirst (n : nat) (l : list Document) : Z := sumBytes (firstn n l).

Definition cutsAt (budget : Z) (l : list Document) (i : nat) : bool :=
  match nth_error l i with
  | Some d =>
      let total := bytesOfFirst (S i) l in
      (total >? budget) || ((total =? budget) && (byteLength (content d) =? 0))
  | None => false
  end.

(** The characters of the codec's alphabet: [a]-[z] and [2]-[7]. *)
Definition inAlphabet (c : N) : bool :=
  (N.leb 97 c && N.leb c 122) || (N.leb 50 c && N.leb c 55).

Definition isUpperCase (c : N) : bool := N.leb 65 c && N.leb c 90.

(** Space, tab, line feed, carriage return. *)
Definition isWhitespace (c : N) : bool :=
  N.eqb c 32 || N.eqb c 9 || N.eqb c 10 || N.eqb c 13.

(** What a read is to return, said without the scan: the documents a path
    offers under [history] ... *)
Definition candidates (query : Query) (slots : Obj Document) : list Document :=
  if strEq' (history query) (js "latest") then
    match latestOf slots with
    | Some w => [w]
    | None => []
    end
  else objValues slots.

(** ... the paths the query's [path] and [pathStartsWith] select ... *)
Definition prefixOk (query : Query) (p : jsstring) : bool :=
  match pathStartsWith query with
  | Some prefix => startsWith p prefix
  | None => true
  end.

Definition pathSelected (query : Query) (p : jsstring) : bool :=
  match qPath query with
  | Some p0 => strEq p0 p
  | None => true
  end && prefixOk query p.

(** The paths the loop of [documents] visits: it skips while [continue] is
    taken and ends at the first [break]. *)
Fixpoint visited (query : Query) (paths : list jsstring) : list jsstring :=
  match paths with
  | [] => []
  | p :: rest =>
      match prefixScan query p with
      | Visit => p :: visited query rest
      | Continue => visited query rest
      | Break => []
      end
  end.

Section Selection.
Variable queryMatchesDoc : Query -> Document -> bool.

(** ... and of those, the documents that pass the filter, taken over the
    whole store in property order. *)
Definition selectedDocs (query : Query) (now : Z) (docs : Obj (Obj Document))
  : list Document :=
  flat_map
    (fun kv =>
       if pathSelected query (fst kv)
       then filter (keepDoc queryMatchesDoc query now) (candidates query (snd kv))
       else [])
    docs.

(** What one path adds to the results of a scan. *)
Definition contribution (query : Query) (now : Z) (docs : Obj (Obj Document))
    (p : jsstring) : list Document :=
  match objOwn p docs with
  | Some slots => filter (keepDoc queryMatchesDoc query now) (candidates query slots)
  | None => []
  end.

End Selection.

(** [limit], for a count that is not negative, and [limitBytes]. *)
Definition countCut (query : Query) (results : list Document) : list Document :=
  match limit query with
  | Some n => firstn (Z.to_nat n) results
  | None => results
  end.

Definition byteCut (query : Query) (results : list Document) : list Document :=
  match limitBytes query with
  | Some n => applyLimitBytes n results
  | None => results
  end.

(** The query names one path, the index holds nothing under it, and it is a
    name of [Object.prototype]: the test of line 61 lets it through. *)
Definition inheritedPath (query : Query) (docs : Obj (Obj Document)) : bool :=
  match qPath query with
  | Some p => negb (isSome (objOwn p docs)) && inherited p
  | None => false
  end.

(** ... and the [pathStartsWith] test of the loop lets it through too: the
    scan reads the inherited member as if it were a slot table. *)
Definition readsInherited (query : Query) (docs : Obj (Obj Document)) : bool :=
  inheritedPath query docs &&
  match qPath query with
  | Some p => prefixOk query p
  | None => false
  end.

Section Latest.
Variable queryMatchesDoc : Query -> Document -> bool.

(** [history: 'latest'] in the spec's words: per selected path the single
    document ranked first, and the filter applied to that one document. *)
Definition latestSelection (query : Query) (now : Z) (docs : Obj (Obj Document))
  : list Document :=
  flat_map
    (fun kv =>
       if pathSelected query (fst kv) then
         match latestOf (snd kv) with
         | Some w => if keepDoc queryMatchesDoc query now w then [w] else []
         | None => []
         end
       else [])
    docs.

End Latest.

(** No two documents at one path have both the same timestamp and the same
    signature. *)
Definition noTies (docs : Obj (Obj Document)) : Prop :=
  forall p a a' d d',
    lookupDoc p a docs = Some d -> lookupDoc p a' docs = Some d' ->
    timestamp d = timestamp d' -> signature d = signature d' -> d = d'.

(** [history] is one of the two values [documents] accepts. *)
Definition knownHistory (query : Query) : Prop :=
  history query = Some (js "latest") \/ history query = Some (js "all").


Section Calls.
Variable queryMatchesDoc : Query -> Document -> bool.



End Calls.

(* ====================================================================== *)
(** ** Concrete stores, queries and buffers *)

Definition optTest {A} (test : A -> bool) (x : option A) : bool :=
  match x with
  | Some v => test v
  | None => true
  end.

(** Modelled from the spec: [queryMatchesDoc] of [src/storage/query.ts], which
    is not among the sources: the conjunction of all set predicates (exact
    path, prefix, exact author, timestamp bounds, content length bounds, and
    the pagination cursor), an unset predicate passing.  It instantiates the
    matcher in the concrete runs below; the theorems hold for every matcher. *)
Definition specQueryMatchesDoc (query : Query) (doc : Document) : bool :=
  optTest (strEq (path doc)) (qPath query) &&
  optTest (startsWith (path doc)) (pathStartsWith query) &&
  optTest (strEq (author doc)) (qAuthor query) &&
  optTest (fun t => t <=? timestamp doc) (timestampLower query) &&
  optTest (fun t => timestamp doc <=? t) (timestampUpper query) &&
  optTest (fun n => n <=? byteLength (content doc)) (contentLengthLower query) &&
  optTest (fun n => byteLength (content doc) <=? n) (contentLengthUpper query) &&
  optTest (fun cursor =>
             match strCompare (path doc) (fst cursor) with
             | Gt => true
             | Eq => match strCompare (author doc) (snd cursor) with
                     | Gt => true
                     | _ => false
                     end
             | Lt => false
             end) (continueAfter query).

Definition suzy : jsstring := js "@suzy.bsuzy".
Definition matt : jsstring := js "@matt.bmatt".

(** Two authors wrote [/wiki] at the same time; the signatures differ. *)
Definition wikiBySuzy : Document :=
  mkDocument (js "/wiki") suzy (js "one") (js "bhash1") 100 None (js "bsigaaa").
Definition wikiByMatt : Document :=
  mkDocument (js "/wiki") matt (js "two") (js "bhash2") 100 None (js "bsigzzz").

Definition tiedStore : StorageMemory :=
  snd (_upsertDocument wikiByMatt (snd (_upsertDocument wikiBySuzy emptyStore))).

(** Contents of 3, 0 and 5 bytes; the first is the one-character snowman
    U+2603, three bytes in UTF-8. *)
Definition docSnowman : Document :=
  mkDocument (js "/a") suzy [9731%N] (js "bhash3") 1 None (js "bsig3").
Definition docEmpty : Document :=
  mkDocument (js "/b") suzy [] (js "bhash0") 2 None (js "bsig0").
Definition docHello : Document :=
  mkDocument (js "/c") suzy (js "hello") (js "bhash5") 3 None (js "bsig5").

Definition threeStore : StorageMemory :=
  snd (_upsertDocument docHello
         (snd (_upsertDocument docEmpty
                 (snd (_upsertDocument docSnowman emptyStore))))).

Definition queryLatest : Query := withHistory (Some (js "latest")) emptyQuery.
Definition queryAll : Query := withHistory (Some (js "all")) emptyQuery.
Definition queryBytes3 : Query :=
  mkQuery None None None None None None None None None None (Some 3).
Definition queryAllLimit0 : Query :=
  mkQuery None None None None None None None None (Some (js "all")) (Some 0) None.
Definition queryLatestLimit0 : Query :=
  mkQuery None None None None None None None None (Some (js "latest")) (Some 0) None.

(** Queries for the path [constructor], a name of [Object.prototype]. *)
Definition queryConstructorLatest : Query :=
  mkQuery (Some (js "constructor")) None None None None None None None
          (Some (js "latest")) None None.
Definition queryConstructorAll : Query :=
  mkQuery (Some (js "constructor")) None None None None None None None
          (Some (js "all")) None None.
Definition queryConstructorNewest : Query :=
  mkQuery (Some (js "constructor")) None None None None None None None
          (Some (js "newest")) None None.

(** A value of [history] that [documents] does not know. *)
Definition queryNewest : Query := withHistory (Some (js "newest")) emptyQuery.

(** Suzy writes [/wiki] again. *)
Definition wikiBySuzyLater : Document :=
  mkDocument (js "/wiki") suzy (js "three") (js "bhash3") 200 None (js "bsigmmm").

(** The two writes of [tiedStore], in the other order. *)
Definition tiedStoreReversed : StorageMemory :=
  snd (_upsertDocument wikiBySuzy (snd (_upsertDocument wikiByMatt emptyStore))).

(** A document that expires at time 50, beside one that never does. *)
Definition docEphemeral : Document :=
  mkDocument (js "/tmp") suzy (js "soon gone") (js "bhash9") 10 (Some 50) (js "bsig9").

Definition ephemeralStore : StorageMemory :=
  snd (_upsertDocument docEphemeral (snd (_upsertDocument docHello emptyStore))).


(** The buffers of the test [base32 encoding] in [src/test/crypto.test.ts]. *)
Definition buf12345 : list Byte.byte :=
  [Byte.x01; Byte.x02; Byte.x03; Byte.x04; Byte.x05].

Definition multihashBuf : list Byte.byte :=
  [Byte.x12; Byte.x20; Byte.x12; Byte.x0f; Byte.x6a; Byte.xf6; Byte.x01;
   Byte.xd4; Byte.x6e; Byte.x10; Byte.xb2; Byte.xd2; Byte.xe1; Byte.x1e;
   Byte.xd7; Byte.x1c; Byte.x55; Byte.xd2; Byte.x5f; Byte.x30; Byte.x42;
   Byte.xc2; Byte.x25; Byte.x01; Byte.xe4; Byte.x1d; Byte.x12; Byte.x46;
   Byte.xe7; Byte.xa1; Byte.xe9; Byte.xd3; Byte.xd8; Byte.xec].

(** * Part II: the properties *)

(* ====================================================================== *)
(** ** Strings, sorting and dictionaries *)

Lemma strEq_true (a b : jsstring) : strEq a b = true <-> a = b.
Proof.
  unfold strEq. destruct (list_eq_dec N.eq_dec a b); split; congruence.
Qed.

Lemma strEq_false (a b : jsstring) : strEq a b = false <-> a <> b.
Proof.
  unfold strEq. destruct (list_eq_dec N.eq_dec a b); split; congruence.
Qed.

Lemma strEq_refl (a : jsstring) : strEq a a = true.
Proof. now apply strEq_true. Qed.

Lemma strCompare_eq (a b : jsstring) : strCompare a b = Eq <-> a = b.
Proof.
  revert b. induction a as [|x a IH]; intros [|y b]; simpl; split; try congruence.
  - destruct (N.compare_spec x y) as [E|E|E]; try discriminate.
    intros H. apply IH in H. congruence.
  - intros E. injection E as -> ->. rewrite N.compare_refl. now apply IH.
Qed.

Lemma strCompare_antisym (a b : jsstring) :
  strCompare b a = CompOpp (strCompare a b).
Proof.
  revert b. induction a as [|x a IH]; intros [|y b]; simpl; trivial.
  rewrite (N.compare_antisym x y).
  destruct (N.compare x y); simpl; auto.
Qed.

Lemma strCompare_refl (a : jsstring) : strCompare a a = Eq.
Proof. now apply strCompare_eq. Qed.

(** [strCompare] is a total order: [<=] is transitive. *)
Lemma strCompare_trans (a b c : jsstring) :
  strCompare a b <> Gt -> strCompare b c <> Gt -> strCompare a c <> Gt.
Proof.
  revert b c. induction a as [|x a IH]; intros [|y b] [|z c]; simpl;
    try congruence.
  destruct (N.compare_spec x y), (N.compare_spec y z); try congruence;
    intros H1 H2.
  - subst. rewrite N.compare_refl. eauto.
  - subst. destruct (N.compare_spec y z); try lia; congruence.
  - subst. destruct (N.compare_spec x z); try lia; congruence.
  - destruct (N.compare_spec x z); try lia; congruence.
Qed.

Lemma strCompare_lt_trans (a b c : jsstring) :
  strCompare a b = Lt -> strCompare b c = Lt -> strCompare a c = Lt.
Proof.
  intros H1 H2.
  assert (H3 : strCompare a c <> Gt) by (apply strCompare_trans with b; congruence).
  destruct (strCompare a c) eqn:E; trivial; [|congruence].
  apply strCompare_eq in E. subst c.
  rewrite strCompare_antisym, H1 in H2. discriminate.
Qed.


(** On ASCII text the byte length is the number of characters. *)
Lemma byteLength_ascii (s : jsstring) :
  Forall (fun c => (c < 128)%N) s -> byteLength s = Z.of_nat (List.length s).
Proof.
  induction 1 as [|c s Hc _ IH]; [reflexivity|].
  cbn [byteLength List.length].
  apply N.ltb_lt in Hc. rewrite Hc, IH. lia.
Qed.

Lemma byteLength_nonneg (s : jsstring) : 0 <= byteLength s.
Proof.
  assert (H : forall n (s : jsstring), (List.length s <= n)%nat -> 0 <= byteLength s).
  { induction n as [|n IH]; intros [|c r] Hs; simpl in Hs; try (simpl; lia).
    assert (Hr : 0 <= byteLength r) by (apply IH; lia).
    cbn [byteLength].
    destruct (N.ltb c 128); [lia|]. destruct (N.ltb c 2048); [lia|].
    destruct (isHighSurrogate c); [|lia].
    destruct r as [|d r']; [lia|].
    assert (0 <= byteLength r') by (apply IH; simpl in Hs; lia).
    destruct (isLowSurrogate d); lia. }
  eauto.
Qed.

Section SortFacts.
Context {A : Type}.
Variable cmp : A -> A -> comparison.

Lemma insertBy_perm (x : A) (l : list A) : Permutation (insertBy cmp x l) (x :: l).
Proof.
  induction l as [|y l IH]; simpl; auto.
  destruct (cmp x y); auto.
  rewrite IH. apply perm_swap.
Qed.

Lemma sortBy_perm (l : list A) : Permutation (sortBy cmp l) l.
Proof.
  induction l as [|x l IH]; simpl; auto.
  rewrite insertBy_perm. now constructor.
Qed.

Lemma sortBy_In (l : list A) (x : A) : In x (sortBy cmp l) <-> In x l.
Proof.
  split; apply Permutation_in; [|symmetry]; apply sortBy_perm.
Qed.

Lemma hd_insertBy (x : A) (l : list A) :
  hd_error (insertBy cmp x l) =
  match hd_error l with
  | None => Some x
  | Some y => match cmp x y with Gt => Some y | _ => Some x end
  end.
Proof. destruct l as [|y l]; simpl; trivial. destruct (cmp x y); trivial. Qed.

Lemma hd_sortBy (l : list A) : hd_error (sortBy cmp l) = firstBy cmp l.
Proof.
  induction l as [|x l IH]; simpl; trivial.
  now rewrite hd_insertBy, IH.
Qed.

Lemma firstBy_In (l : list A) (w : A) : firstBy cmp l = Some w -> In w l.
Proof.
  revert w. induction l as [|x l IH]; simpl; intros w; try discriminate.
  destruct (firstBy cmp l) as [y|].
  - destruct (cmp x y); intros E; injection E as <-; auto.
  - intros E. injection E as <-. auto.
Qed.

Lemma firstBy_nonempty (l : list A) : l <> [] -> exists w, firstBy cmp l = Some w.
Proof.
  destruct l as [|x l]; [congruence|]. intros _. simpl.
  destruct (firstBy cmp l) as [y|]; [destruct (cmp x y)|]; eauto.
Qed.

Hypothesis cmp_antisym : forall a b, cmp b a = CompOpp (cmp a b).
Hypothesis cmp_trans :
  forall a b c, cmp a b <> Gt -> cmp b c <> Gt -> cmp a c <> Gt.

Lemma cmp_refl_le (a : A) : cmp a a <> Gt.
Proof.
  pose proof (cmp_antisym a a) as H. destruct (cmp a a); simpl in H; congruence.
Qed.

(** Under a total preorder, the first element of the sorted array is not
    ranked after any element. *)
Lemma firstBy_least (l : list A) (w : A) :
  firstBy cmp l = Some w -> forall d, In d l -> cmp w d <> Gt.
Proof.
  revert w. induction l as [|x l IH]; simpl; intros w Hw d Hd; [tauto|].
  destruct (firstBy cmp l) as [y|] eqn:Ey.
  - destruct (cmp x y) eqn:Exy; injection Hw as <-; destruct Hd as [<-|Hd].
    + apply cmp_refl_le.
    + apply cmp_trans with y; [congruence|]. now apply IH.
    + apply cmp_refl_le.
    + apply cmp_trans with y; [congruence|]. now apply IH.
    + rewrite cmp_antisym, Exy. discriminate.
    + now apply IH.
  - injection Hw as <-. destruct Hd as [<-|Hd]; [apply cmp_refl_le|].
    destruct l; [destruct Hd|simpl in Ey].
    destruct (firstBy cmp l); [destruct (cmp a a0)|]; discriminate.
Qed.

Lemma insertBy_sorted (x : A) (l : list A) :
  StronglySorted (fun a b => cmp a b <> Gt) l ->
  StronglySorted (fun a b => cmp a b <> Gt) (insertBy cmp x l).
Proof.
  induction l as [|y l IH]; simpl; intros Hs.
  - repeat constructor.
  - inversion Hs as [|? ? Hs' Hy]; subst.
    destruct (cmp x y) eqn:E.
    + constructor; trivial. constructor; [congruence|].
      eapply Forall_impl; [|exact Hy]. intros z Hz.
      apply cmp_trans with y; congruence.
    + constructor; trivial. constructor; [congruence|].
      eapply Forall_impl; [|exact Hy]. intros z Hz.
      apply cmp_trans with y; congruence.
    + constructor; auto.
      eapply Permutation_Forall; [symmetry; apply insertBy_perm|].
      constructor; trivial. rewrite cmp_antisym, E. discriminate.
Qed.

(** The sorted array is in comparator order. *)
Lemma sortBy_sorted (l : list A) :
  StronglySorted (fun a b => cmp a b <> Gt) (sortBy cmp l).
Proof.
  induction l as [|x l IH]; simpl; [constructor|]. now apply insertBy_sorted.
Qed.

End SortFacts.

Lemma sortLatestFirst_antisym (a b : Document) :
  sortLatestFirst b a = CompOpp (sortLatestFirst a b).
Proof.
  unfold sortLatestFirst.
  rewrite (Z.compare_antisym (timestamp b) (timestamp a)).
  destruct (timestamp b ?= timestamp a); simpl; trivial.
  apply strCompare_antisym.
Qed.

Lemma sortLatestFirst_le (a b : Document) :
  sortLatestFirst a b <> Gt <-> ranksNoLater a b.
Proof.
  unfold sortLatestFirst, ranksNoLater.
  destruct (Z.compare_spec (timestamp b) (timestamp a)) as [E|E|E]; split;
    intros H0.
  - auto.
  - destruct H0 as [?|[_ ?]]; [lia|trivial].
  - auto.
  - discriminate.
  - congruence.
  - destruct H0 as [?|[? _]]; lia.
Qed.

Lemma sortLatestFirst_trans (a b c : Document) :
  sortLatestFirst a b <> Gt -> sortLatestFirst b c <> Gt ->
  sortLatestFirst a c <> Gt.
Proof.
  rewrite !sortLatestFirst_le. unfold ranksNoLater.
  intros [H1|[H1 S1]] [H2|[H2 S2]]; try (left; lia).
  right. split; [lia|]. now apply strCompare_trans with (signature b).
Qed.

(** A tie of the comparator is a tie of both keys. *)
Lemma sortLatestFirst_tie (a b : Document) :
  sortLatestFirst a b = Eq <->
  timestamp a = timestamp b /\ signature a = signature b.
Proof.
  unfold sortLatestFirst.
  destruct (Z.compare_spec (timestamp b) (timestamp a)); split;
    try discriminate; try (intros [? _]; lia).
  - intros E. apply strCompare_eq in E. auto.
  - intros [_ E]. apply strCompare_eq. auto.
Qed.

Lemma sortPathAscAuthorAsc_le (a b : Document) :
  sortPathAscAuthorAsc a b <> Gt <-> pathAuthorLe a b.
Proof.
  unfold sortPathAscAuthorAsc, pathAuthorLe.
  destruct (strCompare (path a) (path b)) eqn:E.
  - apply strCompare_eq in E. split; [auto|]. intros [?|[_ ?]]; congruence.
  - split; [auto|discriminate].
  - split; [congruence|]. intros [?|[E' _]]; [discriminate|].
    rewrite E', strCompare_refl in E. discriminate.
Qed.

Lemma sortPathAscAuthorAsc_antisym (a b : Document) :
  sortPathAscAuthorAsc b a = CompOpp (sortPathAscAuthorAsc a b).
Proof.
  unfold sortPathAscAuthorAsc.
  rewrite (strCompare_antisym (path a) (path b)).
  destruct (strCompare (path a) (path b)); simpl; trivial.
  apply strCompare_antisym.
Qed.

Lemma sortPathAscAuthorAsc_trans (a b c : Document) :
  sortPathAscAuthorAsc a b <> Gt -> sortPathAscAuthorAsc b c <> Gt ->
  sortPathAscAuthorAsc a c <> Gt.
Proof.
  rewrite !sortPathAscAuthorAsc_le. unfold pathAuthorLe.
  intros [H1|[H1 A1]] [H2|[H2 A2]].
  - left. now apply strCompare_lt_trans with (path b).
  - left. now rewrite <- H2.
  - left. now rewrite H1.
  - right. split; [congruence|]. now apply strCompare_trans with (author b).
Qed.

Lemma NoDup_app_l {A} (l1 l2 : list A) : NoDup (l1 ++ l2) -> NoDup l1.
Proof.
  induction l1 as [|x l1 IH]; simpl; [constructor|].
  intros ND. inversion ND as [|? ? Hx ND']; subst.
  constructor; auto. intros H. apply Hx. apply in_or_app. auto.
Qed.

Lemma NoDup_app_mid {A} (l1 l2 : list A) (x : A) :
  NoDup (l1 ++ x :: l2) -> ~ In x l1 /\ ~ In x l2 /\ NoDup (l1 ++ l2).
Proof.
  intros ND. pose proof (NoDup_remove_1 _ _ _ ND) as H1.
  pose proof (NoDup_remove_2 _ _ _ ND) as H2.
  repeat split; trivial; intros H; apply H2, in_or_app; auto.
Qed.

Lemma firstn_incl {A} (k : nat) (l : list A) (x : A) : In x (firstn k l) -> In x l.
Proof.
  intros H. rewrite <- (firstn_skipn k l). apply in_or_app. auto.
Qed.

Lemma firstn_NoDup_map {A B} (f : A -> B) (k : nat) (l : list A) :
  NoDup (map f l) -> NoDup (map f (firstn k l)).
Proof.
  intros H. rewrite <- (firstn_skipn k l), map_app in H.
  eapply NoDup_app_l; eauto.
Qed.

Lemma StronglySorted_firstn {A} (R : A -> A -> Prop) (k : nat) (l : list A) :
  StronglySorted R l -> StronglySorted R (firstn k l).
Proof.
  revert k. induction l as [|x l IH]; intros [|k] Hs; simpl; try constructor.
  - inversion Hs; auto.
  - inversion Hs as [|? ? _ Hx]; subst.
    apply Forall_forall. intros y Hy. apply firstn_incl in Hy.
    revert y Hy. now apply Forall_forall.
Qed.

Lemma firstn_length_app {A} (l1 l2 : list A) : firstn (List.length l1) (l1 ++ l2) = l1.
Proof. induction l1; simpl; [now destruct l2|congruence]. Qed.

Lemma nth_error_length_app {A} (l1 l2 : list A) (x : A) :
  nth_error (l1 ++ x :: l2) (List.length l1) = Some x.
Proof. induction l1; simpl; trivial. Qed.

Lemma slice0_prefix {A} (n : Z) (l : list A) : exists k, slice0 n l = firstn k l.
Proof. unfold slice0. destruct (n <? 0); eauto. Qed.

Section ObjFacts.
Context {V : Type}.
Implicit Types (o : Obj V) (k : jsstring).

Lemma objOwn_None k o : objOwn k o = None <-> ~ In k (objKeys o).
Proof.
  induction o as [|[k' v'] o IH]; simpl; [tauto|].
  destruct (strEq k' k) eqn:E.
  - apply strEq_true in E. split; [discriminate|]. intros H. destruct H; auto.
  - apply strEq_false in E. rewrite IH. tauto.
Qed.

Lemma objOwn_In k v o : objOwn k o = Some v -> In (k, v) o.
Proof.
  induction o as [|[k' v'] o IH]; simpl; [discriminate|].
  destruct (strEq k' k) eqn:E; auto.
  apply strEq_true in E. intros H. injection H as <-. subst. auto.
Qed.

Lemma In_objOwn k v o : NoDup (objKeys o) -> In (k, v) o -> objOwn k o = Some v.
Proof.
  induction o as [|[k' v'] o IH]; simpl; [tauto|].
  intros ND [E|H]; inversion ND as [|? ? Hk ND']; subst.
  - injection E as -> ->. now rewrite strEq_refl.
  - destruct (strEq k' k) eqn:E; auto.
    apply strEq_true in E. subst. exfalso. apply Hk.
    change k with (fst (k, v)). now apply in_map.
Qed.

Lemma objOwn_app_r k o1 o2 :
  ~ In k (objKeys o1) -> objOwn k (o1 ++ o2) = objOwn k o2.
Proof.
  induction o1 as [|[k' v'] o1 IH]; simpl; trivial.
  intros H. destruct (strEq k' k) eqn:E.
  - apply strEq_true in E. tauto.
  - apply IH. tauto.
Qed.

Lemma objPut_app_r k v o1 o2 :
  ~ In k (objKeys o1) -> objPut k v (o1 ++ o2) = o1 ++ objPut k v o2.
Proof.
  induction o1 as [|[k' v'] o1 IH]; simpl; trivial.
  intros H. destruct (strEq k' k) eqn:E.
  - apply strEq_true in E. tauto.
  - f_equal. apply IH. tauto.
Qed.

Lemma objDelete_absent k o : ~ In k (objKeys o) -> objDelete k o = o.
Proof.
  induction o as [|[k' v'] o IH]; simpl; trivial.
  intros H. destruct (strEq k' k) eqn:E.
  - apply strEq_true in E. tauto.
  - f_equal. apply IH. tauto.
Qed.

Lemma objDelete_app k o1 o2 :
  objDelete k (o1 ++ o2) = objDelete k o1 ++ objDelete k o2.
Proof.
  induction o1 as [|[k' v'] o1 IH]; simpl; trivial.
  destruct (strEq k' k); simpl; now rewrite IH.
Qed.

Lemma objKeys_app o1 o2 : objKeys (o1 ++ o2) = objKeys o1 ++ objKeys o2.
Proof. apply map_app. Qed.

(** Writing a property: an existing key keeps its place, a new key goes
    last. *)
Lemma objPut_absent k v o : ~ In k (objKeys o) -> objPut k v o = o ++ [(k, v)].
Proof.
  induction o as [|[k' v'] o IH]; simpl; trivial.
  intros H. destruct (strEq k' k) eqn:E.
  - apply strEq_true in E. tauto.
  - f_equal. apply IH. tauto.
Qed.

Lemma objKeys_objPut_present k v o :
  In k (objKeys o) -> objKeys (objPut k v o) = objKeys o.
Proof.
  induction o as [|[k' v'] o IH]; simpl; [tauto|].
  intros H. destruct (strEq k' k) eqn:E; simpl; trivial.
  apply strEq_false in E. f_equal. apply IH. tauto.
Qed.

Lemma objPut_NoDup k v o : NoDup (objKeys o) -> NoDup (objKeys (objPut k v o)).
Proof.
  intros ND. destruct (in_dec (list_eq_dec N.eq_dec) k (objKeys o)) as [i|n].
  - now rewrite objKeys_objPut_present.
  - rewrite objPut_absent, objKeys_app by trivial. simpl.
    apply NoDup_app; auto.
    + repeat constructor. simpl. tauto.
    + intros x Hx [<-|[]]. auto.
Qed.

Lemma objPut_In k v o k' v' :
  NoDup (objKeys o) ->
  In (k', v') (objPut k v o) ->
  (k' = k /\ v' = v) \/ (k' <> k /\ In (k', v') o).
Proof.
  induction o as [|[k0 v0] o IH]; simpl; intros ND.
  - intros [E|[]]. injection E as <- <-. auto.
  - inversion ND as [|? ? Hk ND']; subst.
    destruct (strEq k0 k) eqn:E; simpl.
    + apply strEq_true in E. subst. intros [E|H].
      * injection E as <- <-. auto.
      * right. split; auto. intros ->. apply Hk.
        change k with (fst (k, v')). now apply in_map.
    + apply strEq_false in E. intros [E'|H].
      * injection E' as <- <-. auto.
      * destruct (IH ND' H) as [?|[? ?]]; auto.
Qed.

Lemma objOwn_objPut k v o k' :
  objOwn k' (objPut k v o) = if strEq k k' then Some v else objOwn k' o.
Proof.
  induction o as [|[k0 v0] o IH]; simpl.
  - destruct (strEq k k'); trivial.
  - destruct (strEq k0 k) eqn:E; simpl.
    + apply strEq_true in E. subst. destruct (strEq k k'); trivial.
    + rewrite IH. destruct (strEq k0 k') eqn:E'; trivial.
      destruct (strEq k k') eqn:E''; trivial.
      apply strEq_true in E', E''. apply strEq_false in E. congruence.
Qed.

End ObjFacts.

Lemma objPut_nonempty {V} (k : jsstring) (v : V) (o : Obj V) : objPut k v o <> [].
Proof. destruct o as [|[k' v'] o]; simpl; [|destruct (strEq k' k)]; discriminate. Qed.

(* ====================================================================== *)
(** ** The store invariant and the deleting scan *)

Lemma filterSlots_steps (shouldKeep : Document -> bool) (todo done : Obj Document) :
  NoDup (objKeys (done ++ todo)) ->
  fold_left
    (fun slots a =>
       match objOwn a slots with
       | Some doc => if negb (shouldKeep doc) then objDelete a slots else slots
       | None => slots
       end)
    (objKeys todo) (done ++ todo)
  = done ++ keptSlots shouldKeep todo.
Proof.
  revert done. induction todo as [|[a d] todo IH]; intros done ND; simpl; trivial.
  rewrite objKeys_app in ND. simpl in ND.
  destruct (NoDup_app_mid _ _ _ ND) as (Hd & Ht & ND').
  rewrite objOwn_app_r by trivial. simpl. rewrite strEq_refl.
  destruct (shouldKeep d); simpl.
  - change (done ++ (a, d) :: todo) with (done ++ [(a, d)] ++ todo).
    rewrite app_assoc, IH.
    + now rewrite <- app_assoc.
    + rewrite <- app_assoc, objKeys_app. exact ND.
  - rewrite objDelete_app. simpl. rewrite strEq_refl.
    rewrite !objDelete_absent by trivial.
    apply IH. now rewrite objKeys_app.
Qed.

Lemma filterSlots_kept (shouldKeep : Document -> bool) (slots : Obj Document) :
  NoDup (objKeys slots) -> filterSlots shouldKeep slots = keptSlots shouldKeep slots.
Proof. intros ND. apply (filterSlots_steps shouldKeep slots []). exact ND. Qed.

Lemma filterPaths_steps (shouldKeep : Document -> bool) (todo done : Obj (Obj Document)) :
  NoDup (objKeys (done ++ todo)) ->
  (forall p slots, In (p, slots) todo -> NoDup (objKeys slots)) ->
  fold_left
    (fun docs p =>
       match objOwn p docs with
       | Some slots =>
           let slots := filterSlots shouldKeep slots in
           let docs := objPut p slots docs in
           if (List.length (objKeys slots) =? 0)%nat then objDelete p docs else docs
       | None => docs
       end)
    (objKeys todo) (done ++ todo)
  = done ++ keptPaths shouldKeep todo.
Proof.
  revert done. induction todo as [|[p slots] todo IH]; intros done ND Hs; simpl; trivial.
  rewrite objKeys_app in ND. simpl in ND.
  destruct (NoDup_app_mid _ _ _ ND) as (Hd & Ht & ND').
  rewrite objOwn_app_r by trivial. simpl. rewrite strEq_refl.
  rewrite filterSlots_kept by (apply (Hs p); simpl; auto).
  rewrite objPut_app_r by trivial. simpl. rewrite strEq_refl.
  destruct (keptSlots shouldKeep slots) as [|kv s] eqn:E; simpl.
  - rewrite objDelete_app. simpl. rewrite strEq_refl.
    rewrite !objDelete_absent by trivial.
    apply IH; [now rewrite objKeys_app|]. intros; eapply Hs; simpl; eauto.
  - change (done ++ (p, kv :: s) :: todo) with (done ++ [(p, kv :: s)] ++ todo).
    rewrite app_assoc, IH.
    + now rewrite <- app_assoc.
    + rewrite <- app_assoc, objKeys_app. exact ND.
    + intros; eapply Hs; simpl; eauto.
Qed.

(** The deleting scan of [_filterDocs], on a well-formed store, is a filter. *)
Lemma filterPaths_kept (shouldKeep : Document -> bool) (docs : Obj (Obj Document)) :
  wfDocs docs -> filterPaths shouldKeep docs = keptPaths shouldKeep docs.
Proof.
  intros [ND Hs]. apply (filterPaths_steps shouldKeep docs []); trivial.
  intros p slots H. now apply Hs in H as (_ & ? & _).
Qed.

Lemma keptSlots_keys (shouldKeep : Document -> bool) (slots : Obj Document) a :
  In a (objKeys (keptSlots shouldKeep slots)) -> In a (objKeys slots).
Proof.
  unfold objKeys, keptSlots. rewrite !in_map_iff.
  intros (kv & E & H). apply filter_In in H. exists kv. tauto.
Qed.

Lemma keptSlots_NoDup (shouldKeep : Document -> bool) (slots : Obj Document) :
  NoDup (objKeys slots) -> NoDup (objKeys (keptSlots shouldKeep slots)).
Proof.
  induction slots as [|[a d] slots IH]; simpl; trivial.
  intros ND. inversion ND as [|? ? Ha ND']; subst.
  destruct (shouldKeep d); simpl; auto.
  constructor; auto. intros H. apply Ha. eapply keptSlots_keys; eauto.
Qed.

Lemma keptSlots_get (shouldKeep : Document -> bool) (slots : Obj Document) a :
  NoDup (objKeys slots) ->
  objOwn a (keptSlots shouldKeep slots) =
  match objOwn a slots with
  | Some d => if shouldKeep d then Some d else None
  | None => None
  end.
Proof.
  induction slots as [|[a' d] slots IH]; simpl; trivial.
  intros ND. inversion ND as [|? ? Ha ND']; subst.
  destruct (strEq a' a) eqn:E.
  - apply strEq_true in E. subst.
    destruct (shouldKeep d); simpl; [now rewrite strEq_refl|].
    apply objOwn_None. intros H. apply Ha. eapply keptSlots_keys; eauto.
  - destruct (shouldKeep d); simpl; [rewrite E|]; auto.
Qed.

Lemma keptPaths_keys (shouldKeep : Document -> bool) (docs : Obj (Obj Document)) p :
  In p (objKeys (keptPaths shouldKeep docs)) -> In p (objKeys docs).
Proof.
  induction docs as [|[p' slots] docs IH]; simpl; trivial.
  destruct (keptSlots shouldKeep slots); simpl; intuition.
Qed.

Lemma keptPaths_In (shouldKeep : Document -> bool) (docs : Obj (Obj Document)) p s :
  In (p, s) (keptPaths shouldKeep docs) ->
  s <> [] /\ exists slots, In (p, slots) docs /\ s = keptSlots shouldKeep slots.
Proof.
  induction docs as [|[p' slots] docs IH]; simpl; [tauto|].
  destruct (keptSlots shouldKeep slots) as [|kv s'] eqn:E.
  - intros H. destruct (IH H) as (? & slots' & ? & ?). eauto.
  - intros [H|H].
    + injection H as <- <-. split; [discriminate|]. eauto.
    + destruct (IH H) as (? & slots' & ? & ?). eauto.
Qed.

Lemma keptPaths_wf (shouldKeep : Document -> bool) (docs : Obj (Obj Document)) :
  wfDocs docs -> wfDocs (keptPaths shouldKeep docs).
Proof.
  intros [ND Hs]. split.
  - clear Hs. induction docs as [|[p slots] docs IH]; simpl; trivial.
    inversion ND as [|? ? Hp ND']; subst.
    destruct (keptSlots shouldKeep slots); simpl; auto.
    constructor; auto. intros H. apply Hp. eapply keptPaths_keys; eauto.
  - intros p s H. apply keptPaths_In in H as (Hne & slots & Hin & ->).
    destruct (Hs _ _ Hin) as (_ & ND' & Hd).
    split; [trivial|]. split; [now apply keptSlots_NoDup|].
    intros a d H. apply filter_In in H as [H _]. auto.
Qed.

Lemma keptPaths_lookup (shouldKeep : Document -> bool) (docs : Obj (Obj Document)) p a :
  wfDocs docs ->
  lookupDoc p a (keptPaths shouldKeep docs) =
  match lookupDoc p a docs with
  | Some d => if shouldKeep d then Some d else None
  | None => None
  end.
Proof.
  unfold lookupDoc. intros [ND Hs].
  induction docs as [|[p' slots] docs IH]; simpl; trivial.
  inversion ND as [|? ? Hp ND']; subst.
  assert (Hs' : forall p slots, In (p, slots) docs -> wfSlots p slots)
    by (intros; apply Hs; simpl; auto).
  destruct (Hs p' slots) as (_ & NDs & _); [simpl; auto|].
  destruct (strEq p' p) eqn:E.
  - apply strEq_true in E. subst.
    pose proof (keptSlots_get shouldKeep slots a NDs) as G.
    destruct (keptSlots shouldKeep slots) as [|kv s] eqn:Ek; simpl.
    + simpl in G. rewrite <- G.
      assert (objOwn p (keptPaths shouldKeep docs) = None) as ->; trivial.
      apply objOwn_None. intros H. apply Hp. eapply keptPaths_keys; eauto.
    + now rewrite strEq_refl.
  - destruct (keptSlots shouldKeep slots); simpl; [|rewrite E]; auto.
Qed.

Lemma emptyStore_wf : wfStore emptyStore.
Proof. split; [constructor|intros ? ? []]. Qed.

(** [_upsertDocument] keeps the store well formed. *)
Lemma upsert_wf (doc : Document) (st : StorageMemory) :
  wfStore st -> wfStore (snd (_upsertDocument doc st)).
Proof.
  unfold _upsertDocument, bind, _assertNotClosed, modify, wfStore.
  destruct (_isClosed st); simpl; trivial.
  intros [ND Hs].
  assert (Hslots : forall slots,
             match objOwn (path doc) (_docs st) with
             | Some s => s
             | None => []
             end = slots ->
             NoDup (objKeys slots) /\
             forall a d, In (a, d) slots -> path d = path doc /\ author d = a).
  { intros slots <-. destruct (objOwn (path doc) (_docs st)) as [s|] eqn:G.
    - apply objOwn_In, Hs in G. destruct G as (_ & ? & ?). auto.
    - split; [constructor|intros ? ? []]. }
  destruct (Hslots _ eq_refl) as [NDs Hd]. clear Hslots.
  split; [now apply objPut_NoDup|].
  intros p s H. apply objPut_In in H as [[-> ->]|[_ H]]; auto.
  split; [apply objPut_nonempty|]. split; [now apply objPut_NoDup|].
  intros a d H. apply objPut_In in H as [[-> ->]|[_ H]]; auto.
Qed.



Lemma filterDocs_wf (shouldKeep : Document -> bool) (st : StorageMemory) :
  wfStore st -> wfStore (snd (_filterDocs shouldKeep st)).
Proof.
  unfold _filterDocs, bind, _assertNotClosed, modify, wfStore.
  destruct (_isClosed st); simpl; trivial.
  intros Hwf. rewrite filterPaths_kept by trivial. now apply keptPaths_wf.
Qed.

(** [discardExpiredDocuments] removes exactly the expired documents. *)
Lemma discardExpiredDocuments_removes_expired (st : StorageMemory) (clock : Z) :
  wfStore st ->
  _isClosed st = false ->
  exists st',
    discardExpiredDocuments clock st = (Ok tt, st') /\
    wfStore st' /\
    _config st' = _config st /\
    forall p a,
      lookupDoc p a (_docs st') =
      match lookupDoc p a (_docs st) with
      | Some d => if documentIsExpired d (currentTime clock st) then None else Some d
      | None => None
      end.
Proof.
  intros Hwf Hopen.
  unfold discardExpiredDocuments, _filterDocs, bind, _assertNotClosed, gets, modify.
  rewrite Hopen. simpl. rewrite Hopen. eexists. split; [reflexivity|]. simpl.
  rewrite (filterPaths_kept _ _ Hwf). split; [now apply keptPaths_wf|].
  split; trivial.
  intros p a. rewrite (keptPaths_lookup _ _ p a Hwf).
  destruct (lookupDoc p a (_docs st)) as [d|]; trivial.
  now destruct (documentIsExpired d (currentTime clock st)).
Qed.


Lemma tiedStore_wf : wfStore tiedStore.
Proof. unfold tiedStore. apply upsert_wf, upsert_wf, emptyStore_wf. Qed.

Lemma threeStore_wf : wfStore threeStore.
Proof. unfold threeStore. apply upsert_wf, upsert_wf, upsert_wf, emptyStore_wf. Qed.

(* ====================================================================== *)
(** ** Reading: what [documents] returns *)

Lemma applyLimitBytes_prefix (n : Z) (l : list Document) :
  exists k, applyLimitBytes n l = firstn k l.
Proof.
  unfold applyLimitBytes. destruct (limitBytesCut n 0 0 l) as [ii|]; eauto.
  exists (List.length l). now rewrite firstn_all.
Qed.

Lemma pathsToConsider_ok (query : Query) (docs : Obj (Obj Document))
    (paths : list jsstring) :
  wfDocs docs ->
  inheritedPath query docs = false ->
  pathsToConsider query docs = Some paths ->
  NoDup paths /\
  forall p, In p paths -> exists slots, objOwn p docs = Some slots /\ wfSlots p slots.
Proof.
  intros [ND Hs] Hni. unfold pathsToConsider, objGet. unfold inheritedPath in Hni.
  assert (Hkeys : forall p, In p (objKeys docs) ->
             exists slots, objOwn p docs = Some slots /\ wfSlots p slots).
  { intros p Hp. destruct (objOwn p docs) as [slots|] eqn:G.
    - exists slots. split; trivial. apply Hs. now apply objOwn_In.
    - apply objOwn_None in G. tauto. }
  assert (Hsort : forall l, NoDup l ->
             (forall p, In p l -> In p (objKeys docs)) ->
             forall l',
               (if isSome (pathStartsWith query) || isSome (limit query)
                then Some (sortBy strCompare l) else Some l) = Some l' ->
               NoDup l' /\ forall p, In p l' -> In p (objKeys docs)).
  { intros l NDl Hl l'.
    destruct (isSome (pathStartsWith query) || isSome (limit query));
      intros E; injection E as <-; auto.
    split.
    - eapply Permutation_NoDup; [symmetry; apply sortBy_perm|trivial].
    - intros p Hp. apply Hl. now apply sortBy_In in Hp. }
  destruct (qPath query) as [p0|].
  - destruct (objOwn p0 docs) as [slots0|] eqn:G;
      [|simpl in Hni; rewrite Hni; discriminate].
    intros E. apply Hsort in E as [? Hl]; auto.
    + repeat constructor. simpl. tauto.
    + intros p [<-|[]]. apply objOwn_In in G.
      change p0 with (fst (p0, slots0)). now apply in_map.
  - intros E. apply Hsort in E as [? Hl]; auto.
Qed.

Section Reading.
Variable queryMatchesDoc : Query -> Document -> bool.

Lemma keepDoc_spec (query : Query) (now : Z) (d : Document) :
  keepDoc queryMatchesDoc query now d = true <->
  queryMatchesDoc query d = true /\ documentIsExpired d now = false.
Proof.
  unfold keepDoc, documentIsExpired. rewrite andb_true_iff.
  destruct (deleteAfter d) as [t|]; [|tauto].
  rewrite Z.leb_le, Z.ltb_ge. tauto.
Qed.

Lemma latestOf_least (slots : Obj Document) (w : Document) :
  latestOf slots = Some w ->
  In w (objValues slots) /\
  forall d, In d (objValues slots) -> ranksNoLater w d.
Proof.
  unfold latestOf. rewrite hd_sortBy. intros H. split.
  - eapply firstBy_In; eauto.
  - intros d Hd. apply sortLatestFirst_le.
    eapply firstBy_least; eauto.
    + apply sortLatestFirst_antisym.
    + apply sortLatestFirst_trans.
Qed.

Lemma latestOf_some (slots : Obj Document) :
  slots <> [] -> exists w, latestOf slots = Some w.
Proof.
  intros H. unfold latestOf. rewrite hd_sortBy. apply firstBy_nonempty.
  destruct slots; [congruence|discriminate].
Qed.

Lemma docsForPath_latest (query : Query) (now : Z) (slots : Obj Document) (w : Document) :
  history query = Some (js "latest") ->
  latestOf slots = Some w ->
  docsForPath queryMatchesDoc query now slots =
  Ok (if keepDoc queryMatchesDoc query now w then [w] else []).
Proof.
  intros Hh Hw. unfold docsForPath. rewrite Hh. simpl strEq'. rewrite strEq_refl.
  unfold latestOf in Hw.
  destruct (sortBy sortLatestFirst (objValues slots)) as [|d0 l]; simpl in Hw;
    [discriminate|]. injection Hw as ->. simpl.
  destruct (keepDoc queryMatchesDoc query now w); trivial.
Qed.

(** The results of a read are in path order, and in author order within a
    path, whatever order the scan visited the paths in. *)
Lemma documentsSorted_sorted (query : Query) (now : Z) (docs : Obj (Obj Document))
    (results : list Document) :
  documentsSorted queryMatchesDoc query now docs = Ok results ->
  StronglySorted pathAuthorLe results.
Proof.
  unfold documentsSorted.
  destruct (pathsToConsider query docs) as [paths|].
  - destruct (pathLoop queryMatchesDoc query now docs paths []) as [collected|];
      [|discriminate].
    intros E. injection E as <-.
    assert (Hs : StronglySorted pathAuthorLe (sortBy sortPathAscAuthorAsc collected)).
    { pose proof (sortBy_sorted sortPathAscAuthorAsc sortPathAscAuthorAsc_antisym
                    sortPathAscAuthorAsc_trans collected) as Hs.
      induction Hs as [|x l Hl IH Hx]; constructor; trivial.
      eapply Forall_impl; [|exact Hx]. intros y. apply sortPathAscAuthorAsc_le. }
    destruct (limit query) as [n|]; trivial.
    destruct (slice0_prefix n (sortBy sortPathAscAuthorAsc collected)) as [k ->].
    now apply StronglySorted_firstn.
  - intros E. injection E as <-. constructor.
Qed.

Lemma cleanUpQuery_set (q : Query) (h : jsstring) :
  history q = Some h -> cleanUpQuery q = q.
Proof. unfold cleanUpQuery. now intros ->. Qed.

End Reading.

(** Which document wins does not depend on the order in which the authors
    wrote: two slot tables holding the same documents, no two of which share
    both timestamp and signature, have the same winner. *)
Lemma latestOf_order_independent (slots1 slots2 : Obj Document) (w1 w2 : Document) :
  Permutation (objValues slots1) (objValues slots2) ->
  (forall d d',
      In d (objValues slots1) -> In d' (objValues slots1) ->
      timestamp d = timestamp d' -> signature d = signature d' -> d = d') ->
  latestOf slots1 = Some w1 ->
  latestOf slots2 = Some w2 ->
  w1 = w2.
Proof.
  intros Hperm Hinj H1 H2.
  apply latestOf_least in H1 as [In1 Least1].
  apply latestOf_least in H2 as [In2 Least2].
  assert (In2' : In w2 (objValues slots1))
    by (eapply Permutation_in; [symmetry; exact Hperm|exact In2]).
  assert (In1' : In w1 (objValues slots2))
    by (eapply Permutation_in; [exact Hperm|exact In1]).
  specialize (Least1 w2 In2'). specialize (Least2 w1 In1').
  unfold ranksNoLater in *.
  destruct Least1 as [?|[T1 S1]], Least2 as [?|[T2 S2]]; try lia.
  apply (Hinj w1 w2 In1 In2'); [congruence|].
  apply strCompare_eq.
  rewrite (strCompare_antisym (signature w1) (signature w2)) in S1.
  destruct (strCompare (signature w1) (signature w2)); simpl in *; congruence.
Qed.

(** On a timestamp tie the greater signature wins, whoever wrote first. *)
Example latest_breaks_tie_by_signature :
  documents specQueryMatchesDoc 0 queryLatest tiedStore = (Ok [wikiByMatt], tiedStore) /\
  documents specQueryMatchesDoc 0 queryAll tiedStore =
    (Ok [wikiByMatt; wikiBySuzy], tiedStore).
Proof. split; reflexivity. Qed.

(* ====================================================================== *)
(** ** The byte budget *)

Lemma sumBytes_app (l1 l2 : list Document) :
  sumBytes (l1 ++ l2) = sumBytes l1 + sumBytes l2.
Proof. induction l1 as [|d l1 IH]; simpl; [trivial|rewrite IH; lia]. Qed.

(** The loop of lines 133-146, started at index [length pre] with the bytes
    of [pre] counted, stops at the first index that cuts. *)
Lemma limitBytesCut_first (budget : Z) (rest pre : list Document) :
  match limitBytesCut budget (sumBytes pre) (List.length pre) rest with
  | Some k =>
      (List.length pre <= k < List.length (pre ++ rest))%nat /\
      cutsAt budget (pre ++ rest) k = true /\
      forall i, (List.length pre <= i < k)%nat -> cutsAt budget (pre ++ rest) i = false
  | None =>
      forall i, (List.length pre <= i)%nat -> cutsAt budget (pre ++ rest) i = false
  end.
Proof.
  revert pre. induction rest as [|d rest IH]; intros pre; simpl.
  - intros i Hi. unfold cutsAt. rewrite app_nil_r.
    now apply nth_error_None in Hi as ->.
  - assert (Hcut : cutsAt budget (pre ++ d :: rest) (List.length pre) =
                   (sumBytes pre + byteLength (content d) >? budget)
                   || ((sumBytes pre + byteLength (content d) =? budget)
                       && (byteLength (content d) =? 0))).
    { unfold cutsAt, bytesOfFirst. rewrite nth_error_length_app.
      change (pre ++ d :: rest) with (pre ++ [d] ++ rest).
      rewrite app_assoc.
      replace (S (List.length pre)) with (List.length (pre ++ [d]))
        by (rewrite length_app; simpl; lia).
      rewrite firstn_length_app, sumBytes_app. simpl.
      now rewrite Z.add_0_r. }
    destruct ((sumBytes pre + byteLength (content d) >? budget)
              || ((sumBytes pre + byteLength (content d) =? budget)
                  && (byteLength (content d) =? 0))) eqn:E.
    + rewrite length_app. simpl. split; [lia|]. split; [trivial|]. intros; lia.
    + specialize (IH (pre ++ [d])).
      rewrite sumBytes_app, length_app in IH. simpl in IH.
      rewrite Z.add_0_r, Nat.add_1_r, <- app_assoc in IH. simpl in IH.
      destruct (limitBytesCut budget (sumBytes pre + byteLength (content d))
                  (S (List.length pre)) rest) as [k|].
      * destruct IH as (Hk & Hc & Hbefore). split; [lia|]. split; [trivial|].
        intros i Hi. destruct (Nat.eq_dec i (List.length pre)) as [->|Hne]; trivial.
        apply Hbefore. lia.
      * intros i Hi. destruct (Nat.eq_dec i (List.length pre)) as [->|Hne]; trivial.
        apply IH. lia.
Qed.

(** [applyLimitBytes] keeps exactly the documents before the first one that
    cuts. *)
Lemma applyLimitBytes_first_cut (budget : Z) (results : list Document) :
  exists k,
    applyLimitBytes budget results = firstn k results /\
    (k <= List.length results)%nat /\
    (forall i, (i < k)%nat -> cutsAt budget results i = false) /\
    ((k < List.length results)%nat -> cutsAt budget results k = true).
Proof.
  unfold applyLimitBytes.
  pose proof (limitBytesCut_first budget results []) as H. simpl in H.
  destruct (limitBytesCut budget 0 0 results) as [k|].
  - destruct H as (Hk & Hc & Hb). exists k. split; trivial. split; [lia|].
    split; [|trivial]. intros i Hi. apply Hb. lia.
  - exists (List.length results). rewrite firstn_all. split; trivial.
    split; [lia|]. split; [|lia]. intros i _. apply H. lia.
Qed.

Section Budget.
Variable queryMatchesDoc : Query -> Document -> bool.

(** C4.  With [limitBytes] set, [documents] takes the results in path and
    author order (already truncated to [limit]) and cuts them at the first
    document whose UTF-8 content size would take the running total over the
    budget, or which is empty and would land exactly on the budget;
    documents before it are all kept.  A budget (or [limit]) of 0 returns
    nothing at all.  Three documents of 3, 0 and 5 bytes under a budget of 3
    give the first one only.  Sizes are bytes, not characters: the snowman
    U+2603, one character, needs a budget of 3. *)
Theorem documents_limitBytes (st : StorageMemory) (clock : Z) (q : Query) (budget : Z) :
  _isClosed st = false ->
  limitBytes q = Some budget ->
  let query := cleanUpQuery q in
  let now := currentTime clock st in
  (zeroLimit query = true -> documents queryMatchesDoc clock q st = (Ok [], st)) /\
  (forall results,
      zeroLimit query = false ->
      documentsSorted queryMatchesDoc query now (_docs st) = Ok results ->
      StronglySorted pathAuthorLe results /\
      exists k,
        documents queryMatchesDoc clock q st = (Ok (firstn k results), st) /\
        (k <= List.length results)%nat /\
        (forall i, (i < k)%nat -> cutsAt budget results i = false) /\
        ((k < List.length results)%nat -> cutsAt budget results k = true)) /\
  (forall d1 d2 d3,
      byteLength (content d1) = 3 ->
      byteLength (content d2) = 0 ->
      byteLength (content d3) = 5 ->
      applyLimitBytes 3 [d1; d2; d3] = [d1]) /\
  (forall d,
      content d = [9731%N] ->
      applyLimitBytes 2 [d] = [] /\ applyLimitBytes 3 [d] = [d]).
Proof.
  intros Hopen Hb query now.
  assert (Hq : limitBytes query = Some budget).
  { subst query. unfold cleanUpQuery. destruct (history q); trivial. }
  split; [|split; [|split]].
  - intros Hz. unfold documents, bind, _assertNotClosed, ret.
    rewrite Hopen. fold query. now rewrite Hz.
  - intros results Hz E.
    split; [now apply (documentsSorted_sorted queryMatchesDoc query now (_docs st))|].
    destruct (applyLimitBytes_first_cut budget results) as (k & Ek & Hk).
    exists k. split; trivial.
    unfold documents, bind, _assertNotClosed, ret, gets.
    rewrite Hopen. fold query. rewrite Hz. fold now. now rewrite E, Hq, Ek.
  - intros d1 d2 d3 H1 H2 H3. unfold applyLimitBytes. simpl.
    now rewrite H1, H2.
  - intros d E. unfold applyLimitBytes, limitBytesCut. rewrite E.
    split; reflexivity.
Qed.

End Budget.

(** The theorem on the store of the 3-, 0- and 5-byte documents, with a
    budget of 3. *)
Lemma documents_limitBytes_witness :
  _isClosed threeStore = false /\
  limitBytes queryBytes3 = Some 3 /\
  exists k,
    documents specQueryMatchesDoc 0 queryBytes3 threeStore =
      (Ok (firstn k [docSnowman; docEmpty; docHello]), threeStore) /\
    (k <= 3)%nat /\
    (forall i, (i < k)%nat -> cutsAt 3 [docSnowman; docEmpty; docHello] i = false) /\
    ((k < 3)%nat -> cutsAt 3 [docSnowman; docEmpty; docHello] k = true).
Proof.
  split; [reflexivity|]. split; [reflexivity|].
  exact (proj2 (proj1 (proj2 (documents_limitBytes specQueryMatchesDoc threeStore 0
                                queryBytes3 3 eq_refl eq_refl))
                  [docSnowman; docEmpty; docHello] eq_refl eq_refl)).
Defined.

Example snowman_is_three_bytes :
  List.length (content docSnowman) = 1%nat /\ byteLength (content docSnowman) = 3.
Proof. split; reflexivity. Qed.

Example limitBytes_3_0_5 :
  documents specQueryMatchesDoc 0 queryBytes3 threeStore = (Ok [docSnowman], threeStore).
Proof. reflexivity. Qed.

(* ====================================================================== *)
(** ** Forgetting *)

Section Forgetting.
Variable queryMatchesDoc : Query -> Document -> bool.

Lemma cleanUpQuery_limits (q : Query) :
  limit (cleanUpQuery q) = limit q /\ limitBytes (cleanUpQuery q) = limitBytes q.
Proof. unfold cleanUpQuery. destruct (history q); auto. Qed.

(** C10.  A [limit] or [limitBytes] of 0 makes [forgetDocuments] return at
    once on an open store: nothing is deleted and nothing is thrown, whatever
    [history] is, because the zero test stands before the [history] test. *)
Theorem forgetDocuments_zero_limit (st : StorageMemory) (q : Query) :
  _isClosed st = false ->
  limit q = Some 0 \/ limitBytes q = Some 0 ->
  forgetDocuments queryMatchesDoc q st = (Ok tt, st).
Proof.
  intros Hopen Hz. unfold forgetDocuments, bind, _assertNotClosed, ret.
  rewrite Hopen. unfold zeroLimit.
  destruct (cleanUpQuery_limits q) as [-> ->].
  destruct Hz as [-> | ->]; simpl; trivial.
  now rewrite orb_true_r.
Qed.

(** C2, as the code has it.  On an open store, and with neither [limit] nor
    [limitBytes] equal to 0: with [history: 'all'] the call succeeds, and
    afterwards exactly the documents that do not match the query are still
    stored, the configuration being untouched; with any other [history] it
    throws a [ValidationError] and the store is unchanged. *)
Theorem forgetDocuments_history (st : StorageMemory) (q : Query) :
  wfStore st ->
  _isClosed st = false ->
  zeroLimit (cleanUpQuery q) = false ->
  let query := cleanUpQuery q in
  (history query = Some (js "all") ->
   exists st',
     forgetDocuments queryMatchesDoc q st = (Ok tt, st') /\
     wfStore st' /\
     _config st' = _config st /\ _isClosed st' = false /\ _now st' = _now st /\
     forall p a,
       lookupDoc p a (_docs st') =
       match lookupDoc p a (_docs st) with
       | Some d => if queryMatchesDoc query d then None else Some d
       | None => None
       end) /\
  (history query <> Some (js "all") ->
   forgetDocuments queryMatchesDoc q st = (Err ValidationError, st)).
Proof.
  intros Hwf Hopen Hz query. subst query.
  unfold forgetDocuments, _filterDocs, bind, _assertNotClosed, ret, throw, modify.
  rewrite Hopen, Hz. split.
  - intros Hh. rewrite Hh. unfold strEq'. rewrite strEq_refl. simpl.
    rewrite Hopen. eexists. split; [reflexivity|]. simpl.
    rewrite (filterPaths_kept _ _ Hwf).
    split; [now apply keptPaths_wf|]. repeat (split; trivial).
    intros p a. rewrite (keptPaths_lookup _ _ p a Hwf).
    destruct (lookupDoc p a (_docs st)) as [d|]; trivial.
    destruct (queryMatchesDoc (cleanUpQuery q) d); trivial.
  - intros Hh.
    assert (E : strEq' (history (cleanUpQuery q)) (js "all") = false).
    { destruct (history (cleanUpQuery q)) as [h|]; simpl; trivial.
      apply strEq_false. congruence. }
    now rewrite E.
Qed.

End Forgetting.

(** [limit: 0] with [history: 'latest']: no error, nothing deleted. *)
Lemma forgetDocuments_zero_limit_witness :
  _isClosed tiedStore = false /\
  limit queryLatestLimit0 = Some 0 /\
  history queryLatestLimit0 = Some (js "latest") /\
  forgetDocuments specQueryMatchesDoc queryLatestLimit0 tiedStore = (Ok tt, tiedStore).
Proof.
  split; [reflexivity|]. split; [reflexivity|]. split; [reflexivity|].
  exact (forgetDocuments_zero_limit specQueryMatchesDoc tiedStore queryLatestLimit0
           eq_refl (or_introl eq_refl)).
Defined.

(** Forgetting with [history: 'all'] on the two-author store. *)
Lemma forgetDocuments_history_witness :
  wfStore tiedStore /\
  _isClosed tiedStore = false /\
  zeroLimit (cleanUpQuery queryAll) = false /\
  history (cleanUpQuery queryAll) = Some (js "all") /\
  exists st',
    forgetDocuments specQueryMatchesDoc queryAll tiedStore = (Ok tt, st') /\
    wfStore st' /\
    _config st' = _config tiedStore /\ _isClosed st' = false /\
    _now st' = _now tiedStore /\
    forall p a,
      lookupDoc p a (_docs st') =
      match lookupDoc p a (_docs tiedStore) with
      | Some d => if specQueryMatchesDoc (cleanUpQuery queryAll) d then None else Some d
      | None => None
      end.
Proof.
  split; [exact tiedStore_wf|]. split; [reflexivity|]. split; [reflexivity|].
  split; [reflexivity|].
  exact (proj1 (forgetDocuments_history specQueryMatchesDoc tiedStore queryAll
                  tiedStore_wf eq_refl eq_refl) eq_refl).
Defined.

(** C2 as stated fails when [limit] is 0: with [history: 'all'] the call
    returns normally, yet the document that matches the query is still
    stored. *)
Lemma forgetDocuments_all_limit0_removes_nothing :
  ~ (history queryAllLimit0 = Some (js "all") ->
     exists st',
       forgetDocuments specQueryMatchesDoc queryAllLimit0 tiedStore = (Ok tt, st') /\
       forall p a d,
         lookupDoc p a (_docs tiedStore) = Some d ->
         specQueryMatchesDoc (cleanUpQuery queryAllLimit0) d = true ->
         lookupDoc p a (_docs st') = None).
Proof.
  intros H. destruct (H eq_refl) as (st' & E & Hgone).
  injection E as <-.
  specialize (Hgone (js "/wiki") suzy wikiBySuzy eq_refl eq_refl).
  discriminate Hgone.
Qed.

Example forget_latest_is_refused :
  forgetDocuments specQueryMatchesDoc queryLatest tiedStore =
    (Err ValidationError, tiedStore) /\
  fst (forgetDocuments specQueryMatchesDoc queryAll tiedStore) = Ok tt /\
  _docs (snd (forgetDocuments specQueryMatchesDoc queryAll tiedStore)) = [].
Proof. repeat split; reflexivity. Qed.

(* ====================================================================== *)
(** ** The closed store *)

Section Closing.
Variable queryMatchesDoc : Query -> Document -> bool.

Lemma close_closes (st : StorageMemory) :
  close st = (Ok tt, mkStorage [] [] true (_now st)).
Proof. reflexivity. Qed.

(** The document operations test the closed flag first: on a closed store
    each throws [StorageIsClosedError] and leaves the store alone. *)
Lemma closed_document_operations_fail (st : StorageMemory) (clock : Z) (q : Query)
    (doc : Document) :
  _isClosed st = true ->
  documents queryMatchesDoc clock q st = (Err StorageIsClosedError, st) /\
  _upsertDocument doc st = (Err StorageIsClosedError, st) /\
  forgetDocuments queryMatchesDoc q st = (Err StorageIsClosedError, st) /\
  discardExpiredDocuments clock st = (Err StorageIsClosedError, st).
Proof.
  intros H.
  unfold documents, _upsertDocument, forgetDocuments, discardExpiredDocuments,
    bind, _assertNotClosed.
  now rewrite H.
Qed.

End Closing.

Lemma proto_is_inherited : inherited (js "__proto__") = true.
Proof. reflexivity. Qed.

(** C3, where the code departs from it.  The four configuration operations
    never test the closed flag: after [close], [setConfig] stores the value,
    [getConfig] reads it back, and [deleteConfig] and [deleteAllConfig]
    return normally.  (Under the key [__proto__] nothing is stored and the
    prototype is read back; no call throws there either.) *)
Theorem config_operations_after_close (st : StorageMemory) (key content : jsstring) :
  let closed := snd (close st) in
  let written :=
    set_config (if strEq key (js "__proto__") then [] else [(key, content)]) closed in
  _isClosed closed = true /\
  setConfig key content closed = (Ok tt, written) /\
  getConfig key written =
    (Ok (if strEq key (js "__proto__") then Inherited else Own content), written) /\
  deleteConfig key written = (Ok tt, closed) /\
  deleteAllConfig written = (Ok tt, closed).
Proof.
  simpl. unfold setConfig, getConfig, deleteConfig, deleteAllConfig, modify, gets,
    set_config, objSet, objGet. simpl.
  destruct (strEq key (js "__proto__")) eqn:E; simpl.
  - apply strEq_true in E. subst key. rewrite proto_is_inherited. auto.
  - rewrite !strEq_refl. auto.
Qed.

(* ====================================================================== *)
(** ** The base32 codec *)

(** The model reproduces the encoding the repository's test expects. *)
Example encode_multihash_vector :
  encodeBufferToBase32 multihashBuf =
  js "bciqbed3k6ya5i3qqwljochwxdrk5exzqilbckapedujenz5b5hj5r3a".
Proof. reflexivity. Qed.

Example roundtrip_12345 :
  decodeBase32ToBuffer (encodeBufferToBase32 buf12345) = Some buf12345 /\
  encodeBufferToBase32 buf12345 = js "baebagbaf".
Proof. split; reflexivity. Qed.

Lemma list_ind5 {A} (P : list A -> Prop) :
  P [] -> (forall a, P [a]) -> (forall a b, P [a; b]) ->
  (forall a b c, P [a; b; c]) -> (forall a b c d, P [a; b; c; d]) ->
  (forall a b c d e l, P l -> P (a :: b :: c :: d :: e :: l)) ->
  forall l, P l.
Proof.
  intros H0 H1 H2 H3 H4 H5. fix F 1.
  intros [|a [|b [|c [|d [|e l]]]]];
    [apply H0|apply H1|apply H2|apply H3|apply H4|apply H5, F].
Qed.

Lemma list_ind8 {A} (P : list A -> Prop) :
  (forall l, (List.length l < 8)%nat -> P l) ->
  (forall a b c d e f g h l, P l -> P (a :: b :: c :: d :: e :: f :: g :: h :: l)) ->
  forall l, P l.
Proof.
  intros H0 H8. fix F 1.
  intros [|a [|b [|c [|d [|e [|f [|g [|h l]]]]]]]];
    try (apply H0; simpl; lia).
  apply H8, F.
Qed.

Lemma digit_roundtrip (b4 b3 b2 b1 b0 : bool) :
  decodeChar (encodeChar (digitOfBits b4 b3 b2 b1 b0)) =
    Some (digitOfBits b4 b3 b2 b1 b0) /\
  bitsOfDigit (digitOfBits b4 b3 b2 b1 b0) = [b4; b3; b2; b1; b0].
Proof. destruct b4, b3, b2, b1, b0; split; reflexivity. Qed.

Lemma digit_of_testbits (v : N) :
  (v < 32)%N ->
  digitOfBits (N.testbit v 4) (N.testbit v 3) (N.testbit v 2) (N.testbit v 1)
              (N.testbit v 0) = v.
Proof.
  intros H. destruct v as [|p]; [reflexivity|].
  do 5 (destruct p as [p|p|]; try reflexivity); exfalso; lia.
Qed.

Lemma decodeChar_inv (c v : N) :
  decodeChar c = Some v -> (v < 32)%N /\ encodeChar v = c.
Proof.
  unfold decodeChar, encodeChar.
  destruct (N.leb 97 c && N.leb c 122) eqn:E1.
  - apply andb_true_iff in E1 as [H1 H2]. apply N.leb_le in H1, H2.
    intros E. injection E as <-. split; [lia|].
    destruct (N.ltb_spec (c - 97) 26); lia.
  - destruct (N.leb 50 c && N.leb c 55) eqn:E2; [|discriminate].
    apply andb_true_iff in E2 as [H1 H2]. apply N.leb_le in H1, H2.
    intros E. injection E as <-. split; [lia|].
    destruct (N.ltb_spec (c - 24) 26); lia.
Qed.

(** Decoding the digits of some bits gives the bits back, followed by the
    zeros that filled the last digit. *)
Lemma decodeChars_encodeBits (bits : list bool) :
  exists k, (k < 5)%nat /\
    decodeChars (encodeBits bits) = Some (bits ++ repeat false k).
Proof.
  induction bits as [|a|a b|a b c|a b c d|a b c d e l IH] using list_ind5.
  - exists 0%nat. split; [lia|reflexivity].
  - exists 4%nat. split; [lia|]. destruct a; reflexivity.
  - exists 3%nat. split; [lia|]. destruct a, b; reflexivity.
  - exists 2%nat. split; [lia|]. destruct a, b, c; reflexivity.
  - exists 1%nat. split; [lia|]. destruct a, b, c, d; reflexivity.
  - destruct IH as (k & Hk & E). exists k. split; trivial.
    cbn [encodeBits decodeChars].
    destruct (digit_roundtrip a b c d e) as [-> ->]. now rewrite E.
Qed.

Lemma bitsOfByte_byteOfBits (b7 b6 b5 b4 b3 b2 b1 b0 : bool) :
  bitsOfByte (byteOfBits b7 b6 b5 b4 b3 b2 b1 b0) = [b7; b6; b5; b4; b3; b2; b1; b0].
Proof. unfold bitsOfByte, byteOfBits. now rewrite Byte.to_bits_of_bits. Qed.

Lemma bitsOfByte_shape (b : Byte.byte) :
  exists b7 b6 b5 b4 b3 b2 b1 b0,
    bitsOfByte b = [b7; b6; b5; b4; b3; b2; b1; b0] /\
    byteOfBits b7 b6 b5 b4 b3 b2 b1 b0 = b.
Proof.
  unfold bitsOfByte, byteOfBits.
  destruct (Byte.to_bits b) as (b0 & b1 & b2 & b3 & b4 & b5 & b6 & b7) eqn:E.
  exists b7, b6, b5, b4, b3, b2, b1, b0. split; trivial.
  rewrite <- E. apply Byte.of_bits_to_bits.
Qed.

Lemma bytesOfBits_short (l : list bool) :
  (List.length l < 8)%nat -> bytesOfBits l = ([], l).
Proof.
  destruct l as [|a [|b [|c [|d [|e [|f [|g [|h l]]]]]]]]; simpl; trivial. lia.
Qed.

Lemma bytesOfBits_bitsOfBytes (buf : list Byte.byte) (pad : list bool) :
  (List.length pad < 8)%nat -> bytesOfBits (bitsOfBytes buf ++ pad) = (buf, pad).
Proof.
  intros Hp. induction buf as [|b buf IH]; simpl.
  - now apply bytesOfBits_short.
  - destruct (bitsOfByte_shape b) as (b7 & b6 & b5 & b4 & b3 & b2 & b1 & b0 & -> & E).
    simpl. fold (bitsOfBytes buf). now rewrite IH, E.
Qed.

Lemma bytesOfBits_inv (bits : list bool) (bytes : list Byte.byte) (leftover : list bool) :
  bytesOfBits bits = (bytes, leftover) -> bits = bitsOfBytes bytes ++ leftover.
Proof.
  revert bytes. induction bits as [l Hl|a b c d e f g h l IH] using list_ind8;
    intros bytes.
  - rewrite bytesOfBits_short by trivial. intros E. now injection E as <- <-.
  - cbn [bytesOfBits]. destruct (bytesOfBits l) as [bytes' left'].
    intros E. injection E as <- <-. simpl.
    rewrite bitsOfByte_byteOfBits. simpl. f_equal. f_equal. f_equal. f_equal.
    f_equal. f_equal. f_equal. f_equal. now apply IH.
Qed.

Lemma encodeBits_decodeChars (digits : jsstring) (bits : list bool) :
  decodeChars digits = Some bits ->
  encodeBits bits = digits /\ List.length bits = (5 * List.length digits)%nat.
Proof.
  revert bits. induction digits as [|c digits IH]; intros bits; simpl.
  - intros E. injection E as <-. auto.
  - destruct (decodeChar c) as [v|] eqn:Ec; [|discriminate].
    destruct (decodeChars digits) as [bits'|]; [|discriminate].
    intros E. injection E as <-.
    destruct (IH bits' eq_refl) as [E1 E2].
    apply decodeChar_inv in Ec as [Hv Ec].
    cbn [bitsOfDigit app encodeBits]. rewrite digit_of_testbits, Ec, E1 by trivial.
    split; trivial. simpl. lia.
Qed.

(** Zeros that only fill the last digit do not change the digits. *)
Lemma encodeBits_padding (bits : list bool) (k m : nat) :
  (k < 5)%nat ->
  List.length (bits ++ repeat false k) = (5 * m)%nat ->
  encodeBits (bits ++ repeat false k) = encodeBits bits.
Proof.
  intros Hk. revert m.
  induction bits as [|a|a b|a b c|a b c d|a b c d e l IH] using list_ind5;
    intros m; rewrite length_app, repeat_length; cbn [List.length]; intros Hm.
  - assert (k = 0%nat) as -> by lia. reflexivity.
  - assert (k = 4%nat) as -> by lia. reflexivity.
  - assert (k = 3%nat) as -> by lia. reflexivity.
  - assert (k = 2%nat) as -> by lia. reflexivity.
  - assert (k = 1%nat) as -> by lia. reflexivity.
  - cbn [app encodeBits]. f_equal. apply (IH (m - 1)%nat).
    rewrite length_app, repeat_length. lia.
Qed.

Lemma forallb_negb_repeat (l : list bool) :
  forallb negb l = true -> l = repeat false (List.length l).
Proof.
  induction l as [|[|] l IH]; simpl; try discriminate; trivial.
  intros H. f_equal. auto.
Qed.

Lemma decode_encode (buf : list Byte.byte) :
  decodeBase32ToBuffer (encodeBufferToBase32 buf) = Some buf.
Proof.
  unfold decodeBase32ToBuffer, encodeBufferToBase32. rewrite N.eqb_refl.
  destruct (decodeChars_encodeBits (bitsOfBytes buf)) as (k & Hk & ->).
  rewrite bytesOfBits_bitsOfBytes by (rewrite repeat_length; lia).
  rewrite repeat_length.
  assert (Nat.ltb k 5 = true) as -> by (apply Nat.ltb_lt; lia).
  assert (forallb negb (repeat false k) = true) as ->; trivial.
  clear. induction k; simpl; auto.
Qed.

Lemma encode_decode (s : jsstring) (buf : list Byte.byte) :
  decodeBase32ToBuffer s = Some buf -> encodeBufferToBase32 buf = s.
Proof.
  unfold decodeBase32ToBuffer, encodeBufferToBase32.
  destruct s as [|t digits]; [discriminate|].
  destruct (N.eqb_spec t tag) as [->|]; [|discriminate].
  destruct (decodeChars digits) as [bits|] eqn:Ed; [|discriminate].
  destruct (bytesOfBits bits) as [bytes leftover] eqn:Eb.
  destruct (Nat.ltb_spec (List.length leftover) 5); simpl; [|discriminate].
  destruct (forallb negb leftover) eqn:Ez; [|discriminate].
  intros E. injection E as <-. f_equal.
  apply bytesOfBits_inv in Eb. apply forallb_negb_repeat in Ez.
  apply encodeBits_decodeChars in Ed as [Ed El].
  rewrite <- Ed, Eb, Ez. symmetry.
  apply encodeBits_padding with (m := List.length digits); trivial.
  rewrite <- Ez, <- Eb. exact El.
Qed.

(** C5.  The codec round-trips both ways: decoding an encoding gives the
    bytes back, and whatever text decodes is the encoding of its bytes, so a
    byte sequence has exactly one accepted text.  The empty buffer is the tag
    alone. *)
Theorem base32_roundtrip :
  (forall buf, decodeBase32ToBuffer (encodeBufferToBase32 buf) = Some buf) /\
  (forall s buf, decodeBase32ToBuffer s = Some buf -> encodeBufferToBase32 buf = s) /\
  (forall s1 s2 buf,
      decodeBase32ToBuffer s1 = Some buf -> decodeBase32ToBuffer s2 = Some buf ->
      s1 = s2) /\
  encodeBufferToBase32 [] = js "b" /\
  decodeBase32ToBuffer (js "b") = Some [] /\
  decodeBase32ToBuffer (js "baa") = Some [Byte.x00].
Proof.
  split; [exact decode_encode|]. split; [exact encode_decode|]. split.
  - intros s1 s2 buf H1 H2.
    apply encode_decode in H1, H2. congruence.
  - repeat split; reflexivity.
Qed.

(** The canonical-form law on the text of the bytes 1 to 5. *)
Lemma base32_roundtrip_witness :
  decodeBase32ToBuffer (js "baebagbaf") = Some buf12345 /\
  encodeBufferToBase32 buf12345 = js "baebagbaf".
Proof.
  split; [reflexivity|].
  exact (proj1 (proj2 base32_roundtrip) (js "baebagbaf") buf12345 eq_refl).
Defined.

Lemma decodeChar_outside (c : N) : inAlphabet c = false -> decodeChar c = None.
Proof.
  unfold inAlphabet, decodeChar. intros H. apply orb_false_iff in H as [-> ->].
  reflexivity.
Qed.

Lemma decodeChars_outside (digits : jsstring) (c : N) :
  In c digits -> inAlphabet c = false -> decodeChars digits = None.
Proof.
  induction digits as [|c' digits IH]; simpl; [tauto|].
  intros [->|H] Hc.
  - now rewrite decodeChar_outside.
  - rewrite (IH H Hc). now destruct (decodeChar c').
Qed.

(** C6.  Decoding fails on the empty string, on any first character other
    than the tag, on any character outside [a]-[z], [2]-[7] after the tag
    (every uppercase letter and every whitespace character is one), and on
    digits whose leftover bits are not all zero.  Every input the
    repository's test expects to throw is rejected; [b11] is rejected at
    its [1], which is not in the alphabet, and [bab] is a text within the
    alphabet that is rejected for its non-zero leftover bits. *)
Theorem base32_decode_rejects_malformed :
  decodeBase32ToBuffer [] = None /\
  (forall t digits, t <> tag -> decodeBase32ToBuffer (t :: digits) = None) /\
  (forall digits c,
      In c digits -> inAlphabet c = false ->
      decodeBase32ToBuffer (tag :: digits) = None) /\
  (forall c, isUpperCase c = true \/ isWhitespace c = true -> inAlphabet c = false) /\
  (forall digits bits bytes leftover,
      decodeChars digits = Some bits ->
      bytesOfBits bits = (bytes, leftover) ->
      existsb (fun b => b) leftover = true ->
      decodeBase32ToBuffer (tag :: digits) = None) /\
  decodeBase32ToBuffer (js "abc") = None /\
  decodeBase32ToBuffer (js "baA") = None /\
  decodeBase32ToBuffer (js "b123") = None /\
  decodeBase32ToBuffer (js "babc?xyz") = None /\
  decodeBase32ToBuffer (js "babc xyz") = None /\
  decodeBase32ToBuffer (js "b abcxyz") = None /\
  decodeBase32ToBuffer (js "babcxyz ") = None /\
  decodeBase32ToBuffer (js "babcxyz" ++ [10%N]) = None /\
  decodeBase32ToBuffer (js "BABC") = None /\
  decodeBase32ToBuffer (js "b???") = None /\
  decodeBase32ToBuffer (js "b11") = None /\
  decodeBase32ToBuffer (js "bab") = None.
Proof.
  split; [reflexivity|]. split; [|split; [|split; [|split]]].
  - intros t digits Ht. simpl. destruct (N.eqb_spec t tag); congruence.
  - intros digits c Hin Hc. simpl.
    now rewrite (decodeChars_outside digits c Hin Hc).
  - intros c. unfold isUpperCase, isWhitespace, inAlphabet.
    rewrite !orb_true_iff, !andb_true_iff, !N.leb_le, !N.eqb_eq.
    intros H. apply orb_false_iff. rewrite !andb_false_iff, !N.leb_gt. lia.
  - intros digits bits bytes leftover Ed Eb Hnz. simpl. rewrite Ed, Eb.
    assert (forallb negb leftover = false) as ->; [|now rewrite andb_false_r].
    clear -Hnz. induction leftover as [|[|] l IH]; simpl in *; auto; discriminate.
  - repeat split; reflexivity.
Qed.

(** An uppercase letter after the tag. *)
Lemma base32_decode_rejects_malformed_witness :
  In 65%N (js "aA") /\ inAlphabet 65 = false /\
  decodeBase32ToBuffer (tag :: js "aA") = None.
Proof.
  split; [simpl; auto|]. split; [reflexivity|].
  exact (proj1 (proj2 (proj2 base32_decode_rejects_malformed))
           (js "aA") 65%N (or_intror (or_introl eq_refl)) eq_refl).
Defined.

(* ====================================================================== *)
(** ** Author keypairs *)


(** The spec's rule is one such implementation: with it the model refuses
    [ok99] and fails the repository's test. *)
Lemma spec_rule_fails_repository_test (fresh : KeypairBuffers) :
  generateAuthorKeypair fourLowercaseLetters fresh (js "ok99") = Err ValidationError /\
  generateAuthorKeypair_test (generateAuthorKeypair fourLowercaseLetters fresh) = false.
Proof. split; reflexivity. Qed.



(* ====================================================================== *)
(** ** The scan of [documents] against the plain selection *)

(** Paths that start with a prefix are an interval of the string order: once
    a path that does not start with it is not below it, no later path starts
    with it.  This is what the [break] of the scan relies on. *)
Lemma startsWith_passed (prefix p r : jsstring) :
  startsWith p prefix = false ->
  strLt p prefix = false ->
  strCompare p r <> Gt ->
  startsWith r prefix = false.
Proof.
  unfold strLt. revert p r.
  induction prefix as [|c prefix IH]; intros [|x p] [|y r]; simpl;
    try discriminate; try congruence.
  destruct (N.eqb_spec x c) as [->|Hxc]; simpl.
  - rewrite N.compare_refl. intros Hs Hlt.
    destruct (N.compare_spec c y) as [->|Hcy|Hcy]; try congruence.
    + rewrite N.eqb_refl. simpl. intros Hr. eapply IH; eauto.
    + intros _. destruct (N.eqb_spec y c); [lia|reflexivity].
  - intros _. destruct (N.compare_spec x c) as [E|E|E]; try congruence; try discriminate.
    intros _. destruct (N.compare_spec x y) as [E'|E'|E']; try congruence.
    + subst y. intros _. destruct (N.eqb_spec x c); [congruence|reflexivity].
    + intros _. destruct (N.eqb_spec y c); [lia|reflexivity].
Qed.

Section SortMore.
Context {A : Type}.
Variable cmp : A -> A -> comparison.

Lemma insertBy_app (a : A) (S T : list A) :
  (forall t, In t T -> cmp a t <> Gt) ->
  insertBy cmp a (S ++ T) = insertBy cmp a S ++ T.
Proof.
  intros HT. induction S as [|s S IH]; simpl.
  - destruct T as [|t T]; simpl; trivial.
    specialize (HT t (or_introl eq_refl)). destruct (cmp a t); congruence.
  - destruct (cmp a s); simpl; trivial. now rewrite IH.
Qed.

(** Sorting two runs that are already apart sorts each on its own. *)
Lemma sortBy_app (X Y : list A) :
  (forall x y, In x X -> In y Y -> cmp x y <> Gt) ->
  sortBy cmp (X ++ Y) = sortBy cmp X ++ sortBy cmp Y.
Proof.
  induction X as [|a X IH]; intros H; simpl; trivial.
  rewrite IH by (intros; apply H; simpl; auto).
  apply insertBy_app. intros t Ht. apply sortBy_In in Ht. apply H; simpl; auto.
Qed.

Lemma sortBy_length (l : list A) : List.length (sortBy cmp l) = List.length l.
Proof. apply Permutation_length, sortBy_perm. Qed.

(** Two sorted arrangements of the same elements are the same list, when
    elements that compare equal both ways are equal. *)
Lemma sorted_perm_unique (R : A -> A -> Prop) (l1 l2 : list A) :
  (forall a, R a a) ->
  (forall a b, In a l1 -> In b l1 -> R a b -> R b a -> a = b) ->
  StronglySorted R l1 -> StronglySorted R l2 -> Permutation l1 l2 -> l1 = l2.
Proof.
  intros Hrefl. revert l2.
  induction l1 as [|a l1 IH]; intros l2 Hanti S1 S2 P.
  - apply Permutation_nil in P. now subst.
  - destruct l2 as [|b l2]; [symmetry in P; apply Permutation_nil in P; discriminate|].
    inversion S1 as [|? ? S1' F1]; inversion S2 as [|? ? S2' F2]; subst.
    assert (Hab : R a b).
    { assert (Hb : In b (a :: l1))
        by (eapply Permutation_in; [symmetry; exact P|simpl; auto]).
      destruct Hb as [<-|Hb]; [apply Hrefl|].
      rewrite Forall_forall in F1. now apply F1. }
    assert (Hba : R b a).
    { assert (Ha : In a (b :: l2))
        by (eapply Permutation_in; [exact P|simpl; auto]).
      destruct Ha as [<-|Ha]; [apply Hrefl|].
      rewrite Forall_forall in F2. now apply F2. }
    assert (a = b).
    { apply Hanti; trivial; [simpl; auto|].
      eapply Permutation_in; [symmetry; exact P|simpl; auto]. }
    subst b. f_equal. apply IH; trivial.
    + intros x y Hx Hy. apply Hanti; simpl; auto.
    + eapply Permutation_cons_inv; eauto.
Qed.

End SortMore.

Lemma StronglySorted_filter {A} (R : A -> A -> Prop) (f : A -> bool) (l : list A) :
  StronglySorted R l -> StronglySorted R (filter f l).
Proof.
  induction 1 as [|a l Hs IH Ha]; simpl; [constructor|].
  destruct (f a); trivial. constructor; trivial.
  apply Forall_forall. intros x Hx. apply filter_In in Hx as [Hx _].
  revert x Hx. now apply Forall_forall.
Qed.

Lemma StronglySorted_app_apart {A} (R : A -> A -> Prop) (l1 l2 : list A) :
  StronglySorted R (l1 ++ l2) -> forall a b, In a l1 -> In b l2 -> R a b.
Proof.
  induction l1 as [|x l1 IH]; simpl; intros Hs a b Ha Hb; [tauto|].
  inversion Hs as [|? ? Hs' Hx]; subst. destruct Ha as [<-|Ha].
  - assert (Hin : In b (l1 ++ l2)) by (apply in_or_app; auto).
    rewrite Forall_forall in Hx. now apply Hx.
  - now apply IH.
Qed.

(** Sorting distinct strings puts them in strictly ascending order. *)
Lemma sortBy_strings_strict (l : list jsstring) :
  NoDup l -> StronglySorted (fun a b => strCompare a b = Lt) (sortBy strCompare l).
Proof.
  intros ND.
  assert (ND' : NoDup (sortBy strCompare l))
    by (eapply Permutation_NoDup; [symmetry; apply sortBy_perm|exact ND]).
  pose proof (sortBy_sorted strCompare strCompare_antisym strCompare_trans l) as Hs.
  induction Hs as [|a s Hs IH Ha]; [constructor|].
  inversion ND' as [|? ? Hn ND'']; subst. constructor; auto.
  apply Forall_forall. intros x Hx.
  assert (Hle : strCompare a x <> Gt) by (revert x Hx; now apply Forall_forall).
  destruct (strCompare a x) eqn:E; trivial; [|congruence].
  apply strCompare_eq in E. subst. tauto.
Qed.

Lemma visited_filter (query : Query) (paths : list jsstring) :
  pathStartsWith query = None \/
  StronglySorted (fun a b => strCompare a b = Lt) paths ->
  visited query paths = filter (prefixOk query) paths.
Proof.
  intros H.
  assert (Hstep : forall p, prefixScan query p =
            if prefixOk query p then Visit
            else match pathStartsWith query with
                 | Some prefix => if strLt p prefix then Continue else Break
                 | None => Visit
                 end).
  { intros p. unfold prefixScan, prefixOk.
    destruct (pathStartsWith query) as [prefix|]; trivial.
    now destruct (startsWith p prefix). }
  induction paths as [|p rest IH]; simpl; trivial.
  assert (IH' : visited query rest = filter (prefixOk query) rest).
  { apply IH. destruct H as [?|Hs]; auto. inversion Hs; auto. }
  rewrite Hstep. destruct (prefixOk query p) eqn:Ep; [now rewrite IH'|].
  destruct (pathStartsWith query) as [prefix|] eqn:Epre;
    [|unfold prefixOk in Ep; rewrite Epre in Ep; discriminate].
  destruct (strLt p prefix) eqn:El; trivial.
  destruct H as [?|Hs]; [discriminate|].
  inversion Hs as [|? ? _ Hp]; subst. clear IH IH' Hs.
  unfold prefixOk in *. rewrite Epre in *.
  induction rest as [|r rest IH]; simpl; trivial.
  inversion Hp as [|? ? Hr Hp']; subst.
  rewrite (startsWith_passed prefix p r Ep El) by congruence. auto.
Qed.

Lemma slotsAt_own (p : jsstring) (docs : Obj (Obj Document)) (slots : Obj Document) :
  objOwn p docs = Some slots -> slotsAt p docs = Some slots.
Proof. intros G. unfold slotsAt, objGet. now rewrite G. Qed.

Lemma slotsAt_inherited (p : jsstring) (docs : Obj (Obj Document)) :
  objOwn p docs = None -> inherited p = true -> slotsAt p docs = Some [].
Proof. intros G Hi. unfold slotsAt, objGet. now rewrite G, Hi. Qed.

Section Scan.
Variable queryMatchesDoc : Query -> Document -> bool.

Lemma docsForPath_candidates (query : Query) (now : Z) (p : jsstring)
    (slots : Obj Document) :
  wfSlots p slots ->
  knownHistory query ->
  docsForPath queryMatchesDoc query now slots =
  Ok (filter (keepDoc queryMatchesDoc query now) (candidates query slots)).
Proof.
  intros (Hne & _) [Hh|Hh]; unfold candidates.
  - destruct (latestOf_some slots Hne) as [w Hw].
    rewrite (docsForPath_latest queryMatchesDoc query now slots w Hh Hw), Hh, Hw.
    unfold strEq'. rewrite strEq_refl. simpl.
    now destruct (keepDoc queryMatchesDoc query now w).
  - unfold docsForPath. rewrite Hh. reflexivity.
Qed.

(** The loop returns what the visited paths contribute, in order, up to the
    path at which [limit] was reached. *)
Lemma pathLoop_scan (query : Query) (now : Z) (docs : Obj (Obj Document))
    (paths : list jsstring) (acc : list Document) :
  knownHistory query ->
  (forall p, In p paths -> exists slots, objOwn p docs = Some slots /\ wfSlots p slots) ->
  exists vs1 vs2,
    visited query paths = vs1 ++ vs2 /\
    pathLoop queryMatchesDoc query now docs paths acc =
      Ok (acc ++ flat_map (contribution queryMatchesDoc query now docs) vs1) /\
    (vs2 = [] \/
     limitReached (limit query)
       (acc ++ flat_map (contribution queryMatchesDoc query now docs) vs1) = true).
Proof.
  intros Hh. revert acc. induction paths as [|p rest IH]; intros acc Hp; simpl.
  - exists [], []. simpl. rewrite app_nil_r. auto.
  - assert (Hrest : forall p, In p rest ->
              exists slots, objOwn p docs = Some slots /\ wfSlots p slots)
      by (intros; apply Hp; simpl; auto).
    destruct (prefixScan query p).
    + destruct (Hp p) as (slots & G & Hwf); [simpl; auto|].
      rewrite (slotsAt_own _ _ _ G), (docsForPath_candidates query now p slots Hwf Hh).
      assert (Ec : contribution queryMatchesDoc query now docs p =
                   filter (keepDoc queryMatchesDoc query now) (candidates query slots))
        by (unfold contribution; now rewrite G).
      rewrite <- Ec.
      destruct (limitReached (limit query)
                  (acc ++ contribution queryMatchesDoc query now docs p)) eqn:El.
      * exists [p], (visited query rest). simpl. rewrite app_nil_r. auto.
      * destruct (IH (acc ++ contribution queryMatchesDoc query now docs p) Hrest)
          as (vs1 & vs2 & Ev & E & Hl).
        exists (p :: vs1), vs2. simpl. rewrite Ev, E, !app_assoc in *. auto.
    + destruct (IH acc Hrest) as (vs1 & vs2 & Ev & E & Hl).
      exists vs1, vs2. auto.
    + exists [], []. simpl. rewrite app_nil_r. auto.
Qed.

(** Every candidate of a well-formed store is the document stored under its
    own path and author. *)
Lemma candidates_stored (query : Query) (docs : Obj (Obj Document))
    (p : jsstring) (slots : Obj Document) (d : Document) :
  wfDocs docs ->
  In (p, slots) docs ->
  In d (candidates query slots) ->
  path d = p /\ lookupDoc (path d) (author d) docs = Some d.
Proof.
  intros [ND Hs] Hin Hd.
  destruct (Hs p slots Hin) as (_ & NDs & Hown).
  assert (Hv : In d (objValues slots)).
  { unfold candidates in Hd. destruct (strEq' (history query) (js "latest")); trivial.
    destruct (latestOf slots) as [w|] eqn:Hw; [|destruct Hd].
    destruct Hd as [<-|[]]. now apply latestOf_least in Hw. }
  apply in_map_iff in Hv as ([a d'] & E & Hv). simpl in E. subst d'.
  destruct (Hown a d Hv) as [Ep Ea]. split; trivial.
  unfold lookupDoc. rewrite Ep, Ea.
  rewrite (In_objOwn p slots docs ND Hin). now apply In_objOwn.
Qed.

End Scan.

Lemma flat_map_filter {A B} (f : A -> list B) (g : A -> bool) (l : list A) :
  flat_map f (filter g l) = flat_map (fun x => if g x then f x else []) l.
Proof.
  induction l as [|x l IH]; simpl; trivial.
  destruct (g x); simpl; now rewrite IH.
Qed.

Lemma flat_map_map {A B C} (f : B -> list C) (g : A -> B) (l : list A) :
  flat_map f (map g l) = flat_map (fun x => f (g x)) l.
Proof. induction l as [|x l IH]; simpl; [trivial|now rewrite IH]. Qed.

Lemma flat_map_ext_in {A B} (f g : A -> list B) (l : list A) :
  (forall x, In x l -> f x = g x) -> flat_map f l = flat_map g l.
Proof.
  induction l as [|x l IH]; simpl; intros H; trivial.
  rewrite H, IH; auto.
Qed.

Lemma flat_map_nil {A B} (f : A -> list B) (l : list A) :
  (forall x, In x l -> f x = []) -> flat_map f l = [].
Proof.
  induction l as [|x l IH]; simpl; intros H; trivial.
  rewrite H, IH; auto.
Qed.

(** Two documents stored under their own path and author that the result
    order does not tell apart are the same document. *)
Lemma stored_same_key (docs : Obj (Obj Document)) (a b : Document) :
  lookupDoc (path a) (author a) docs = Some a ->
  lookupDoc (path b) (author b) docs = Some b ->
  sortPathAscAuthorAsc a b <> Gt ->
  sortPathAscAuthorAsc b a <> Gt ->
  a = b.
Proof.
  intros La Lb Hab Hba.
  apply sortPathAscAuthorAsc_le in Hab, Hba. unfold pathAuthorLe in *.
  assert (Hkey : path a = path b /\ author a = author b).
  { destruct Hab as [Hab|[Ep Hab]], Hba as [Hba|[Ep' Hba]].
    - rewrite strCompare_antisym, Hab in Hba. discriminate.
    - rewrite Ep', strCompare_refl in Hab. discriminate.
    - rewrite Ep, strCompare_refl in Hba. discriminate.
    - split; trivial. apply strCompare_eq.
      rewrite (strCompare_antisym (author a) (author b)) in Hba.
      destruct (strCompare (author a) (author b)); simpl in *; congruence. }
  destruct Hkey as [Ep Ea]. rewrite Ep, Ea in La. congruence.
Qed.

Section Naive.
Variable queryMatchesDoc : Query -> Document -> bool.

Lemma selected_stored (query : Query) (now : Z) (docs : Obj (Obj Document))
    (d : Document) :
  wfDocs docs ->
  In d (selectedDocs queryMatchesDoc query now docs) ->
  lookupDoc (path d) (author d) docs = Some d /\
  pathSelected query (path d) = true /\
  keepDoc queryMatchesDoc query now d = true.
Proof.
  intros Hwf Hd. unfold selectedDocs in Hd.
  apply in_flat_map in Hd as ([p slots] & Hin & Hd). simpl in Hd.
  destruct (pathSelected query p) eqn:Ep; [|destruct Hd].
  apply filter_In in Hd as [Hd Hk].
  destruct (candidates_stored query docs p slots d Hwf Hin Hd) as [E L].
  rewrite <- E in Ep. auto.
Qed.

Lemma contribution_path (query : Query) (now : Z) (docs : Obj (Obj Document))
    (p : jsstring) (d : Document) :
  wfDocs docs ->
  In d (contribution queryMatchesDoc query now docs p) ->
  path d = p.
Proof.
  intros Hwf Hd. unfold contribution in Hd.
  destruct (objOwn p docs) as [slots|] eqn:G; [|destruct Hd].
  apply filter_In in Hd as [Hd _]. apply objOwn_In in G.
  now destruct (candidates_stored query docs p slots d Hwf G Hd).
Qed.

(** What the paths to consider contribute is, up to order, the plain
    selection over the store; and they are sorted whenever the scan needs
    them to be. *)
Lemma pathsToConsider_selection (query : Query) (now : Z)
    (docs : Obj (Obj Document)) (paths : list jsstring) :
  wfDocs docs ->
  inheritedPath query docs = false ->
  pathsToConsider query docs = Some paths ->
  ((pathStartsWith query = None /\ limit query = None) \/
   StronglySorted (fun a b => strCompare a b = Lt) paths) /\
  Permutation
    (flat_map (contribution queryMatchesDoc query now docs)
       (filter (prefixOk query) paths))
    (selectedDocs queryMatchesDoc query now docs).
Proof.
  intros Hwf Hni E. pose proof Hwf as [ND Hs].
  unfold pathsToConsider, objGet in E. unfold inheritedPath in Hni.
  assert (Hsorted : forall l l',
             NoDup l ->
             (if isSome (pathStartsWith query) || isSome (limit query)
              then Some (sortBy strCompare l) else Some l) = Some l' ->
             Permutation l' l /\
             ((pathStartsWith query = None /\ limit query = None) \/
              StronglySorted (fun a b => strCompare a b = Lt) l')).
  { intros l l' NDl.
    destruct (pathStartsWith query), (limit query); simpl;
      intros El; injection El as <-;
      try (split; [apply sortBy_perm|right; now apply sortBy_strings_strict]).
    split; auto. }
  destruct (qPath query) as [p0|] eqn:Eq.
  - destruct (objOwn p0 docs) as [slots0|] eqn:G;
      [|simpl in Hni; rewrite Hni in E; discriminate].
    assert (E' : paths = [p0]).
    { destruct (isSome (pathStartsWith query) || isSome (limit query));
        injection E as <-; reflexivity. }
    subst paths. split; [right; repeat constructor|].
    apply objOwn_In in G.
    assert (Hsel : selectedDocs queryMatchesDoc query now docs =
                   if prefixOk query p0
                   then filter (keepDoc queryMatchesDoc query now)
                               (candidates query slots0)
                   else []).
    { unfold selectedDocs, pathSelected. rewrite Eq.
      clear Hs Hwf. induction docs as [|[p slots] docs IH]; [destruct G|].
      inversion ND as [|? ? Hp ND']; subst. simpl.
      destruct G as [G|G].
      - injection G as -> ->. rewrite strEq_refl. simpl.
        rewrite flat_map_nil, app_nil_r; trivial.
        intros [p s] Hin. simpl.
        destruct (strEq p0 p) eqn:Ep; trivial.
        apply strEq_true in Ep. subst p. exfalso. apply Hp.
        change p0 with (fst (p0, s)). now apply in_map.
      - destruct (strEq p0 p) eqn:Ep.
        + apply strEq_true in Ep. subst p. exfalso. apply Hp.
          change p0 with (fst (p0, slots0)). now apply in_map.
        + simpl. now apply IH. }
    rewrite Hsel. simpl filter.
    destruct (prefixOk query p0); simpl; [|reflexivity].
    unfold contribution. rewrite (In_objOwn p0 slots0 docs ND G).
    now rewrite app_nil_r.
  - destruct (Hsorted (objKeys docs) paths ND E) as [Hperm Hso].
    split; trivial.
    rewrite flat_map_filter.
    rewrite (Permutation_flat_map _ Hperm).
    unfold objKeys. rewrite flat_map_map.
    unfold selectedDocs, pathSelected. rewrite Eq.
    erewrite flat_map_ext_in; [reflexivity|].
    intros [p slots] Hin. simpl. unfold contribution.
    now rewrite (In_objOwn p slots docs ND Hin).
Qed.

End Naive.

Section NaiveRead.
Variable queryMatchesDoc : Query -> Document -> bool.

Lemma selectedDocs_missing_path (query : Query) (now : Z)
    (docs : Obj (Obj Document)) (p0 : jsstring) :
  qPath query = Some p0 ->
  objOwn p0 docs = None ->
  selectedDocs queryMatchesDoc query now docs = [].
Proof.
  intros Eq G. unfold selectedDocs, pathSelected. rewrite Eq.
  apply flat_map_nil. intros [p slots] Hin. simpl.
  destruct (strEq p0 p) eqn:Ep; trivial.
  apply strEq_true in Ep. subst p. apply objOwn_None in G.
  exfalso. apply G. change p0 with (fst (p0, slots)). now apply in_map.
Qed.

(** What a read does with a path it inherits: the member of
    [Object.prototype] holds no document, so [history: 'latest'] takes the
    first of none and the filter throws, ['all'] finds nothing, and any other
    value is refused. *)
Lemma documentsSorted_inherited (query : Query) (now : Z) (docs : Obj (Obj Document)) :
  readsInherited query docs = true ->
  documentsSorted queryMatchesDoc query now docs =
  if strEq' (history query) (js "latest") then Err TypeError
  else if strEq' (history query) (js "all") then Ok []
  else Err ValidationError.
Proof.
  unfold readsInherited, inheritedPath, documentsSorted, pathsToConsider.
  destruct (qPath query) as [p0|]; [|discriminate].
  intros H. apply andb_prop in H as [H Hpre]. apply andb_prop in H as [Hown Hi].
  destruct (objOwn p0 docs) as [slots|] eqn:G; [discriminate|].
  unfold objGet. rewrite G, Hi.
  assert (Ep : (if isSome (pathStartsWith query) || isSome (limit query)
                then Some (sortBy strCompare [p0]) else Some [p0]) = Some [p0])
    by now destruct (isSome (pathStartsWith query) || isSome (limit query)).
  rewrite Ep. cbn [pathLoop].
  assert (Ev : prefixScan query p0 = Visit).
  { unfold prefixScan. unfold prefixOk in Hpre.
    destruct (pathStartsWith query); trivial. now rewrite Hpre. }
  rewrite Ev, (slotsAt_inherited p0 docs G Hi). unfold docsForPath. simpl.
  destruct (strEq' (history query) (js "latest")); trivial.
  destruct (strEq' (history query) (js "all")); trivial. simpl.
  destruct (limitReached (limit query) []); simpl;
    destruct (limit query) as [n|]; trivial; unfold slice0;
    destruct (n <? 0); now rewrite firstn_nil.
Qed.

(** ... unless [pathStartsWith] keeps the scan from it. *)
Lemma documentsSorted_inherited_skipped (query : Query) (now : Z)
    (docs : Obj (Obj Document)) :
  inheritedPath query docs = true ->
  readsInherited query docs = false ->
  documentsSorted queryMatchesDoc query now docs = Ok [].
Proof.
  intros Hni Hr. unfold readsInherited in Hr. rewrite Hni in Hr. simpl in Hr.
  unfold inheritedPath in Hni.
  destruct (qPath query) as [p0|] eqn:Eq; [|discriminate].
  apply andb_prop in Hni as [Hown Hi].
  destruct (objOwn p0 docs) eqn:G; [discriminate|].
  unfold documentsSorted, pathsToConsider, objGet. rewrite Eq, G, Hi.
  assert (Ep : (if isSome (pathStartsWith query) || isSome (limit query)
                then Some (sortBy strCompare [p0]) else Some [p0]) = Some [p0])
    by now destruct (isSome (pathStartsWith query) || isSome (limit query)).
  rewrite Ep. cbn [pathLoop].
  assert (Ev : prefixScan query p0 <> Visit).
  { unfold prefixScan. unfold prefixOk in Hr.
    destruct (pathStartsWith query) as [prefix|]; [|discriminate].
    rewrite Hr. simpl. now destruct (strLt p0 prefix). }
  destruct (prefixScan query p0); [congruence| |];
    simpl; destruct (limit query) as [n|]; trivial; unfold slice0;
    destruct (n <? 0); now rewrite firstn_nil.
Qed.

(** The scan with its three shortcuts (one path only, prefix skipping and
    stopping, stopping at [limit]) computes the plain selection, sorted and
    cut to [limit]. *)
Lemma documentsSorted_naive (query : Query) (now : Z) (docs : Obj (Obj Document)) :
  wfDocs docs ->
  knownHistory query ->
  (forall n, limit query = Some n -> 0 <= n) ->
  (history query = Some (js "latest") -> readsInherited query docs = false) ->
  documentsSorted queryMatchesDoc query now docs =
  Ok (countCut query
        (sortBy sortPathAscAuthorAsc (selectedDocs queryMatchesDoc query now docs))).
Proof.
  intros Hwf Hh Hlim Hread.
  assert (Hnil : countCut query (sortBy sortPathAscAuthorAsc []) = [])
    by (unfold countCut; destruct (limit query); simpl; trivial; now rewrite firstn_nil).
  destruct (inheritedPath query docs) eqn:Hni.
  { (* the query names an inherited path: nothing is selected *)
    assert (Hsel : selectedDocs queryMatchesDoc query now docs = []).
    { unfold inheritedPath in Hni. destruct (qPath query) as [p0|] eqn:Eq; [|discriminate].
      apply andb_prop in Hni as [Hown _].
      destruct (objOwn p0 docs) eqn:G; [discriminate|].
      exact (selectedDocs_missing_path query now docs p0 Eq G). }
    rewrite Hsel, Hnil.
    destruct (readsInherited query docs) eqn:Hr.
    - rewrite (documentsSorted_inherited query now docs Hr).
      destruct Hh as [Hl|Ha]; [specialize (Hread Hl); discriminate|].
      rewrite Ha. reflexivity.
    - now rewrite (documentsSorted_inherited_skipped query now docs Hni Hr). }
  unfold documentsSorted.
  destruct (pathsToConsider query docs) as [paths|] eqn:Ep.
  2:{ unfold pathsToConsider, objGet in Ep.
      destruct (qPath query) as [p0|] eqn:Eq.
      - destruct (objOwn p0 docs) eqn:G.
        + destruct (isSome (pathStartsWith query) || isSome (limit query));
            discriminate.
        + rewrite (selectedDocs_missing_path query now docs p0 Eq G).
          now rewrite Hnil.
      - destruct (isSome (pathStartsWith query) || isSome (limit query));
          discriminate. }
  destruct (pathsToConsider_ok _ _ _ Hwf Hni Ep) as [ND Hp].
  destruct (pathsToConsider_selection queryMatchesDoc query now docs paths Hwf Hni Ep)
    as [Hsorted Hperm].
  destruct (pathLoop_scan queryMatchesDoc query now docs paths [] Hh Hp)
    as (vs1 & vs2 & Ev & E & Hl).
  rewrite E. simpl app in *. f_equal.
  set (F := flat_map (contribution queryMatchesDoc query now docs)) in *.
  assert (Hvis : visited query paths = filter (prefixOk query) paths).
  { apply visited_filter. destruct Hsorted as [[? _]|?]; auto. }
  (* the count cut of the code is [countCut] *)
  assert (Hcut : forall X,
             match limit query with
             | Some n => slice0 n X
             | None => X
             end = countCut query X).
  { intros X. unfold countCut, slice0.
    destruct (limit query) as [n|] eqn:En; trivial.
    specialize (Hlim n eq_refl).
    destruct (Z.ltb_spec n 0); [lia|trivial]. }
  rewrite Hcut.
  (* stopping at [limit] loses nothing that the cut would keep *)
  assert (HA : countCut query (sortBy sortPathAscAuthorAsc (F vs1)) =
               countCut query (sortBy sortPathAscAuthorAsc (F (visited query paths)))).
  { rewrite Ev. destruct Hl as [->|Hl]; [now rewrite app_nil_r|].
    unfold countCut, limitReached in *.
    destruct (limit query) as [n|] eqn:En; [|discriminate].
    apply Z.leb_le in Hl.
    destruct Hsorted as [[_ ?]|Hso]; [discriminate|].
    assert (Hso' : StronglySorted (fun a b => strCompare a b = Lt) (vs1 ++ vs2)).
    { rewrite <- Ev, Hvis. now apply StronglySorted_filter. }
    unfold F at 2. rewrite flat_map_app. fold F.
    rewrite sortBy_app.
    - rewrite firstn_app.
      replace (Z.to_nat n - List.length (sortBy sortPathAscAuthorAsc (F vs1)))%nat
        with 0%nat by (rewrite sortBy_length; lia).
      simpl. now rewrite app_nil_r.
    - intros x y Hx Hy. unfold F in Hx, Hy.
      apply in_flat_map in Hx as (p1 & Hp1 & Hx).
      apply in_flat_map in Hy as (p2 & Hp2 & Hy).
      apply (contribution_path queryMatchesDoc) in Hx, Hy; trivial.
      pose proof (StronglySorted_app_apart _ _ _ Hso' p1 p2 Hp1 Hp2) as Hlt.
      unfold sortPathAscAuthorAsc. rewrite Hx, Hy, Hlt. discriminate. }
  rewrite HA, Hvis. f_equal.
  (* the order of the paths does not show after the sort *)
  apply (sorted_perm_unique (fun a b => sortPathAscAuthorAsc a b <> Gt)).
  - intros a. apply cmp_refl_le, sortPathAscAuthorAsc_antisym.
  - intros a b Ha Hb. apply sortBy_In in Ha, Hb.
    apply (Permutation_in _ Hperm) in Ha, Hb.
    apply (selected_stored queryMatchesDoc) in Ha as [La _], Hb as [Lb _]; trivial.
    now apply (stored_same_key docs).
  - apply sortBy_sorted;
      [apply sortPathAscAuthorAsc_antisym|apply sortPathAscAuthorAsc_trans].
  - apply sortBy_sorted;
      [apply sortPathAscAuthorAsc_antisym|apply sortPathAscAuthorAsc_trans].
  - rewrite !sortBy_perm. exact Hperm.
Qed.

End NaiveRead.

Lemma applyLimitBytes_zero (results : list Document) : applyLimitBytes 0 results = [].
Proof.
  unfold applyLimitBytes. destruct results as [|d rest]; simpl; trivial.
  pose proof (byteLength_nonneg (content d)) as H.
  destruct (Z.gtb_spec (byteLength (content d)) 0); simpl; trivial.
  assert (byteLength (content d) = 0) as -> by lia. reflexivity.
Qed.

Lemma applyLimitBytes_nil (n : Z) : applyLimitBytes n [] = [].
Proof. reflexivity. Qed.

Section PlainRead.
Variable queryMatchesDoc : Query -> Document -> bool.

Lemma all_is_not_latest : Some (js "all") <> Some (js "latest").
Proof. intros E. apply (f_equal (fun o => strEq' o (js "all"))) in E. discriminate E. Qed.

(** A read, on an open well-formed store, with a known [history] and a
    [limit] that is not negative, that does not take a member of
    [Object.prototype] for the first of a path's documents. *)
Lemma documents_plain (st : StorageMemory) (clock : Z) (q : Query) :
  wfStore st ->
  _isClosed st = false ->
  knownHistory (cleanUpQuery q) ->
  (forall n, limit q = Some n -> 0 <= n) ->
  (history (cleanUpQuery q) = Some (js "latest") ->
   readsInherited (cleanUpQuery q) (_docs st) = false) ->
  documents queryMatchesDoc clock q st =
  (Ok (byteCut (cleanUpQuery q)
         (countCut (cleanUpQuery q)
            (sortBy sortPathAscAuthorAsc
               (selectedDocs queryMatchesDoc (cleanUpQuery q)
                  (currentTime clock st) (_docs st))))), st).
Proof.
  intros Hwf Hopen Hh Hlim Hread.
  assert (Hlim' : forall n, limit (cleanUpQuery q) = Some n -> 0 <= n).
  { intros n. unfold cleanUpQuery. destruct (history q); simpl; auto. }
  unfold documents, bind, _assertNotClosed, ret, throw, gets. rewrite Hopen.
  destruct (zeroLimit (cleanUpQuery q)) eqn:Ez.
  - f_equal. f_equal. unfold zeroLimit, optZeq in Ez.
    unfold byteCut, countCut.
    destruct (limit (cleanUpQuery q)) as [n|] eqn:En.
    + destruct (Z.eqb_spec n 0) as [->|Hn].
      * simpl. now destruct (limitBytes (cleanUpQuery q)).
      * simpl in Ez. destruct (limitBytes (cleanUpQuery q)) as [b|]; [|discriminate].
        apply Z.eqb_eq in Ez. subst b. now rewrite applyLimitBytes_zero.
    + simpl in Ez. destruct (limitBytes (cleanUpQuery q)) as [b|]; [|discriminate].
      apply Z.eqb_eq in Ez. subst b. now rewrite applyLimitBytes_zero.
  - now rewrite (documentsSorted_naive queryMatchesDoc _ _ _ Hwf Hh Hlim' Hread).
Qed.

(** With [history: 'all'] that holds for every [path] a query may name. *)
Lemma documents_plain_all (st : StorageMemory) (clock : Z) (q : Query) :
  wfStore st ->
  _isClosed st = false ->
  history (cleanUpQuery q) = Some (js "all") ->
  (forall n, limit q = Some n -> 0 <= n) ->
  documents queryMatchesDoc clock q st =
  (Ok (byteCut (cleanUpQuery q)
         (countCut (cleanUpQuery q)
            (sortBy sortPathAscAuthorAsc
               (selectedDocs queryMatchesDoc (cleanUpQuery q)
                  (currentTime clock st) (_docs st))))), st).
Proof.
  intros Hwf Hopen Hh Hlim. apply documents_plain; trivial; [now right|].
  intros E. rewrite Hh in E. now destruct all_is_not_latest.
Qed.

(** A read that takes a member of [Object.prototype] for a slot table. *)
Lemma documents_inherited (st : StorageMemory) (clock : Z) (q : Query) :
  _isClosed st = false ->
  readsInherited (cleanUpQuery q) (_docs st) = true ->
  documents queryMatchesDoc clock q st =
  (if zeroLimit (cleanUpQuery q) then Ok []
   else if strEq' (history (cleanUpQuery q)) (js "latest") then Err TypeError
   else if strEq' (history (cleanUpQuery q)) (js "all") then Ok []
   else Err ValidationError, st).
Proof.
  intros Hopen Hr.
  unfold documents, bind, _assertNotClosed, ret, throw, gets. rewrite Hopen.
  destruct (zeroLimit (cleanUpQuery q)); trivial.
  rewrite (documentsSorted_inherited queryMatchesDoc _ _ _ Hr).
  destruct (strEq' (history (cleanUpQuery q)) (js "latest")); trivial.
  destruct (strEq' (history (cleanUpQuery q)) (js "all")); trivial.
  now destruct (limitBytes (cleanUpQuery q)).
Qed.

Lemma selectedDocs_In (query : Query) (now : Z) (docs : Obj (Obj Document))
    (d : Document) :
  wfDocs docs ->
  In d (selectedDocs queryMatchesDoc query now docs) <->
  exists slots,
    objOwn (path d) docs = Some slots /\ In d (candidates query slots) /\
    pathSelected query (path d) = true /\
    keepDoc queryMatchesDoc query now d = true.
Proof.
  intros Hwf. split.
  - intros Hd. unfold selectedDocs in Hd.
    apply in_flat_map in Hd as ([p slots] & Hin & Hd). simpl in Hd.
    destruct (pathSelected query p) eqn:Ep; [|destruct Hd].
    apply filter_In in Hd as [Hd Hk].
    destruct (candidates_stored query docs p slots d Hwf Hin Hd) as [E _].
    exists slots. rewrite E. destruct Hwf as [ND _].
    split; [now apply In_objOwn|auto].
  - intros (slots & G & Hc & Hp & Hk). unfold selectedDocs.
    apply in_flat_map. exists (path d, slots). split; [now apply objOwn_In|].
    simpl. rewrite Hp. apply filter_In. auto.
Qed.

Lemma candidates_all (query : Query) (docs : Obj (Obj Document)) (d : Document) :
  wfDocs docs ->
  history query = Some (js "all") ->
  (exists slots, objOwn (path d) docs = Some slots /\ In d (candidates query slots)) <->
  lookupDoc (path d) (author d) docs = Some d.
Proof.
  intros Hwf Hh. unfold candidates, lookupDoc. rewrite Hh. simpl. split.
  - intros (slots & G & Hd). pose proof G as G'. apply objOwn_In in G'.
    assert (Hc : In d (candidates query slots))
      by (unfold candidates; now rewrite Hh).
    destruct (candidates_stored query docs _ slots d Hwf G' Hc) as [_ L].
    exact L.
  - destruct (objOwn (path d) docs) as [slots|]; [|discriminate].
    intros G. exists slots. split; trivial.
    apply objOwn_In in G. change d with (snd (author d, d)). now apply in_map.
Qed.

(** X1.  On an open store, for a query whose [history] is 'latest' or 'all'
    and whose [limit] is not negative, [documents] returns the plain
    selection: the stored documents whose path the query selects ([path],
    [pathStartsWith]) and that match the query and are not expired (with
    'latest', only the winner of each path is a candidate), in path then
    author order, cut to [limit] and then to [limitBytes].  None of the
    scan's shortcuts (one path only, skipping and stopping on the prefix,
    stopping at [limit]) changes the answer.  With 'all' this holds for
    every query; with 'latest', for every query but one whose [path] names a
    member of [Object.prototype] under which nothing is stored and which
    passes [pathStartsWith]. *)
Theorem documents_is_plain_selection (st : StorageMemory) (clock : Z) (q : Query) :
  wfStore st ->
  _isClosed st = false ->
  knownHistory (cleanUpQuery q) ->
  (forall n, limit q = Some n -> 0 <= n) ->
  (history (cleanUpQuery q) = Some (js "latest") ->
   readsInherited (cleanUpQuery q) (_docs st) = false) ->
  let query := cleanUpQuery q in
  let now := currentTime clock st in
  let selected := selectedDocs queryMatchesDoc query now (_docs st) in
  documents queryMatchesDoc clock q st =
    (Ok (byteCut query (countCut query (sortBy sortPathAscAuthorAsc selected))), st) /\
  (history query = Some (js "all") ->
   forall d,
     In d selected <->
     lookupDoc (path d) (author d) (_docs st) = Some d /\
     pathSelected query (path d) = true /\
     queryMatchesDoc query d = true /\ documentIsExpired d now = false) /\
  (history query = Some (js "latest") ->
   forall d,
     In d selected <->
     (exists slots,
         objOwn (path d) (_docs st) = Some slots /\ latestOf slots = Some d) /\
     pathSelected query (path d) = true /\
     queryMatchesDoc query d = true /\ documentIsExpired d now = false).
Proof.
  intros Hwf Hopen Hh Hlim Hread query now selected.
  split; [now apply documents_plain|]. split.
  - intros Hall d. subst selected.
    rewrite (selectedDocs_In query now (_docs st) d Hwf).
    rewrite <- (candidates_all query (_docs st) d Hwf Hall). split.
    + intros (slots & ? & ? & ? & Hk). apply keepDoc_spec in Hk. split; eauto.
    + intros ((slots & ? & ?) & ? & Hk). apply keepDoc_spec in Hk. eauto.
  - intros Hlatest d. subst selected.
    rewrite (selectedDocs_In query now (_docs st) d Hwf).
    unfold candidates. rewrite Hlatest.
    unfold strEq'. rewrite strEq_refl. split.
    + intros (slots & G & Hc & ? & Hk). apply keepDoc_spec in Hk.
      split; auto. exists slots. split; trivial.
      destruct (latestOf slots) as [w|]; [|destruct Hc].
      destruct Hc as [->|[]]. reflexivity.
    + intros ((slots & G & Hw) & ? & Hk). apply keepDoc_spec in Hk.
      exists slots. rewrite Hw. simpl. auto.
Qed.

End PlainRead.

Lemma wfDocs_tail (kv : jsstring * Obj Document) (docs : Obj (Obj Document)) :
  wfDocs (kv :: docs) -> wfDocs docs.
Proof.
  intros [ND Hs]. split.
  - now inversion ND.
  - intros; apply Hs; simpl; auto.
Qed.

Section LatestRead.
Variable queryMatchesDoc : Query -> Document -> bool.

Lemma latestSelection_selected (query : Query) (now : Z) (docs : Obj (Obj Document)) :
  history query = Some (js "latest") ->
  selectedDocs queryMatchesDoc query now docs =
  latestSelection queryMatchesDoc query now docs.
Proof.
  intros Hh. unfold selectedDocs, latestSelection, candidates. rewrite Hh.
  unfold strEq'. rewrite strEq_refl.
  apply flat_map_ext. intros [p slots]. simpl.
  destruct (pathSelected query p); trivial.
  now destruct (latestOf slots) as [w|].
Qed.

Lemma latestSelection_In (query : Query) (now : Z) (docs : Obj (Obj Document))
    (d : Document) :
  wfDocs docs ->
  In d (latestSelection queryMatchesDoc query now docs) <->
  (exists slots, objOwn (path d) docs = Some slots /\ latestOf slots = Some d) /\
  pathSelected query (path d) = true /\
  queryMatchesDoc query d = true /\ documentIsExpired d now = false.
Proof.
  intros Hwf. pose proof Hwf as [ND Hs]. unfold latestSelection. rewrite in_flat_map. split.
  - intros ([p slots] & Hin & Hd). simpl in Hd.
    destruct (pathSelected query p) eqn:Ep; [|destruct Hd].
    destruct (latestOf slots) as [w|] eqn:Hw; [|destruct Hd].
    destruct (keepDoc queryMatchesDoc query now w) eqn:Hk; [|destruct Hd].
    destruct Hd as [<-|[]]. apply keepDoc_spec in Hk.
    assert (Epath : path w = p).
    { destruct (latestOf_least slots w Hw) as [Hv _].
      apply in_map_iff in Hv as ([a w'] & E & Hv). simpl in E. subst w'.
      destruct (Hs p slots Hin) as (_ & _ & Hown). now destruct (Hown a w Hv). }
    rewrite Epath. split; [|tauto].
    exists slots. split; trivial. now apply In_objOwn.
  - intros ((slots & G & Hw) & Hp & Hk). apply keepDoc_spec in Hk.
    exists (path d, slots). split; [now apply objOwn_In|].
    simpl. now rewrite Hp, Hw, Hk; left.
Qed.

Lemma latestSelection_one_per_path (query : Query) (now : Z)
    (docs : Obj (Obj Document)) :
  wfDocs docs -> NoDup (map path (latestSelection queryMatchesDoc query now docs)).
Proof.
  induction docs as [|[p slots] docs IH]; intros Hwf; [constructor|].
  pose proof (wfDocs_tail _ _ Hwf) as Hwf'.
  assert (Hrest : forall d, In d (latestSelection queryMatchesDoc query now docs) ->
                            In (path d) (objKeys docs)).
  { intros d Hd. apply (latestSelection_In query now docs d Hwf') in Hd.
    destruct Hd as ((s & G & _) & _). apply objOwn_In in G.
    change (path d) with (fst (path d, s)). now apply in_map. }
  change (latestSelection queryMatchesDoc query now ((p, slots) :: docs))
    with ((if pathSelected query p then
             match latestOf slots with
             | Some w => if keepDoc queryMatchesDoc query now w then [w] else []
             | None => []
             end
           else []) ++ latestSelection queryMatchesDoc query now docs).
  assert (Hp : ~ In p (objKeys docs)).
  { destruct Hwf as [ND _]. unfold objKeys in ND. simpl in ND.
    now apply NoDup_cons_iff in ND as [Hp _]. }
  destruct (pathSelected query p); [|now apply IH].
  destruct (latestOf slots) as [w|] eqn:Hw; [|now apply IH].
  destruct (keepDoc queryMatchesDoc query now w); [|now apply IH].
  simpl. constructor; [|now apply IH].
  assert (Epath : path w = p).
  { destruct (latestOf_least slots w Hw) as [Hv _].
    apply in_map_iff in Hv as ([a w'] & E & Hv). simpl in E. subst w'.
    destruct Hwf as [_ Hs].
    destruct (Hs p slots (or_introl eq_refl)) as (_ & _ & Hown).
    now destruct (Hown a w Hv). }
  rewrite Epath. intros Hin. apply in_map_iff in Hin as (d & E & Hd).
  apply Hrest in Hd. rewrite E in Hd. tauto.
Qed.

(** C1.  With [history: 'latest'], each path is reduced to the one document
    that [sortLatestFirst] ranks first (newest timestamp; among equally new
    ones the greatest signature), and only then filtered by
    [queryMatchesDoc] and expiry, so that a path yields that document or
    nothing: the read returns exactly these winners, at most one per path,
    in path order and cut to the limits, and leaves the store as it was (a
    second call gives the same answer).  The code departs from the claim
    where the query's [path] names a member of [Object.prototype] under
    which nothing is stored: line 61 takes the inherited member for the
    path's documents, there is no first document, and the filter throws a
    [TypeError] where the path should yield nothing. *)
Theorem documents_latest_winner (st : StorageMemory) (clock : Z) (q : Query) :
  wfStore st ->
  _isClosed st = false ->
  history q = Some (js "latest") ->
  (forall n, limit q = Some n -> 0 <= n) ->
  let query := cleanUpQuery q in
  let now := currentTime clock st in
  let winners := latestSelection queryMatchesDoc query now (_docs st) in
  (forall p slots,
      objOwn p (_docs st) = Some slots ->
      exists w,
        latestOf slots = Some w /\
        In w (objValues slots) /\
        forall d, In d (objValues slots) -> ranksNoLater w d) /\
  (forall d,
      In d winners <->
      (exists slots,
          objOwn (path d) (_docs st) = Some slots /\ latestOf slots = Some d) /\
      pathSelected query (path d) = true /\
      queryMatchesDoc query d = true /\ documentIsExpired d now = false) /\
  NoDup (map path winners) /\
  (readsInherited query (_docs st) = false ->
   documents queryMatchesDoc clock q st =
     (Ok (byteCut query (countCut query (sortBy sortPathAscAuthorAsc winners))), st)) /\
  (readsInherited query (_docs st) = true ->
   documents queryMatchesDoc clock q st =
     (if zeroLimit query then Ok [] else Err TypeError, st)).
Proof.
  intros Hwf Hopen Hh Hlim query now winners.
  assert (Hq : history query = Some (js "latest"))
    by (subst query; now rewrite (cleanUpQuery_set q _ Hh)).
  split; [|split; [|split; [|split]]].
  - intros p slots G.
    destruct Hwf as [_ Hs]. apply objOwn_In, Hs in G as (Hne & _).
    destruct (latestOf_some slots Hne) as [w Hw]. exists w.
    split; trivial. now apply latestOf_least.
  - intros d. now apply latestSelection_In.
  - now apply latestSelection_one_per_path.
  - intros Hr. subst winners. rewrite <- (latestSelection_selected query now _ Hq).
    apply documents_plain; trivial. now left.
  - intros Hr. rewrite (documents_inherited queryMatchesDoc st clock q Hopen Hr).
    fold query. rewrite Hq. unfold strEq'. now rewrite strEq_refl.
Qed.

End LatestRead.

Lemma slice0_length {A} (n : Z) (l : list A) :
  0 <= n -> Z.of_nat (List.length (slice0 n l)) <= n.
Proof.
  intros Hn. unfold slice0. destruct (Z.ltb_spec n 0); [lia|].
  pose proof (firstn_le_length (Z.to_nat n) l).
  rewrite length_firstn. lia.
Qed.

Lemma applyLimitBytes_within (budget : Z) (results : list Document) :
  0 <= budget -> sumBytes (applyLimitBytes budget results) <= budget.
Proof.
  intros Hb.
  destruct (applyLimitBytes_first_cut budget results) as (k & -> & Hk & Hkeep & _).
  destruct k as [|k]; [simpl; lia|].
  specialize (Hkeep k (Nat.lt_succ_diag_r k)). unfold cutsAt in Hkeep.
  destruct (nth_error results k) eqn:En;
    [|apply nth_error_None in En; lia].
  apply orb_false_iff in Hkeep as [Hgt _]. unfold bytesOfFirst in Hgt.
  destruct (Z.gtb_spec (sumBytes (firstn (S k) results)) budget);
    [discriminate|lia].
Qed.

Section Limits.
Variable queryMatchesDoc : Query -> Document -> bool.

(** X2.  Whatever is stored and whatever the query, a read that returns
    never returns more documents than a [limit] that is not negative, nor
    documents whose contents add up to more bytes than a [limitBytes] that
    is not negative. *)
Theorem documents_within_limits (st st' : StorageMemory) (clock : Z) (q : Query)
    (res : list Document) :
  documents queryMatchesDoc clock q st = (Ok res, st') ->
  (forall n, limit q = Some n -> 0 <= n -> Z.of_nat (List.length res) <= n) /\
  (forall b, limitBytes q = Some b -> 0 <= b -> sumBytes res <= b).
Proof.
  unfold documents, bind, _assertNotClosed, ret, throw, gets.
  destruct (_isClosed st); [discriminate|].
  destruct (cleanUpQuery_limits q) as [El Eb].
  destruct (zeroLimit (cleanUpQuery q)).
  - intros E. injection E as <- _. split; intros; simpl; lia.
  - destruct (documentsSorted queryMatchesDoc (cleanUpQuery q)
                (currentTime clock st) (_docs st)) as [results|] eqn:Es;
      [|discriminate].
    intros E. injection E as <- _. rewrite Eb.
    unfold documentsSorted in Es. rewrite El in Es.
    assert (Hlen : forall n, limit q = Some n -> 0 <= n ->
                             Z.of_nat (List.length results) <= n).
    { intros n En Hn. rewrite En in Es.
      destruct (pathsToConsider (cleanUpQuery q) (_docs st));
        [|injection Es as <-; simpl; lia].
      destruct (pathLoop _ _ _ _ _ _); [|discriminate].
      injection Es as <-. now apply slice0_length. }
    split.
    + intros n En Hn. specialize (Hlen n En Hn).
      destruct (limitBytes q) as [b|]; trivial.
      destruct (applyLimitBytes_prefix b results) as [k ->].
      pose proof (firstn_le_length k results). rewrite length_firstn. lia.
    + intros b Hb Hb0. rewrite Hb. now apply applyLimitBytes_within.
Qed.

End Limits.

Lemma objPut_objPut {V} (k : jsstring) (v1 v2 : V) (o : Obj V) :
  objPut k v2 (objPut k v1 o) = objPut k v2 o.
Proof.
  induction o as [|[k' v'] o IH]; simpl.
  - now rewrite strEq_refl.
  - destruct (strEq k' k) eqn:E; simpl; rewrite E; [trivial|now rewrite IH].
Qed.

(** X3.  A second write by the same author at the same path replaces the
    first without a trace: the store is the one the second write alone would
    have left. *)
Theorem upsert_overwrites (d1 d2 : Document) (st : StorageMemory) :
  path d1 = path d2 ->
  author d1 = author d2 ->
  snd (_upsertDocument d2 (snd (_upsertDocument d1 st))) = snd (_upsertDocument d2 st).
Proof.
  intros Ep Ea. unfold _upsertDocument, bind, _assertNotClosed, modify.
  destruct (_isClosed st) eqn:Hc; simpl; rewrite Hc; simpl; trivial.
  unfold set_docs. simpl. f_equal.
  rewrite Ep, Ea, objOwn_objPut, strEq_refl, !objPut_objPut. reflexivity.
Qed.

Section Composition.
Variable queryMatchesDoc : Query -> Document -> bool.



Lemma keep_after_discard (query : Query) (now : Z) (slots : Obj Document) :
  filter (keepDoc queryMatchesDoc query now)
    (objValues (keptSlots (fun d => negb (documentIsExpired d now)) slots)) =
  filter (keepDoc queryMatchesDoc query now) (objValues slots).
Proof.
  induction slots as [|[a d] slots IH]; simpl; trivial.
  destruct (documentIsExpired d now) eqn:Ex; simpl.
  - destruct (keepDoc queryMatchesDoc query now d) eqn:Ek; trivial.
    apply keepDoc_spec in Ek. destruct Ek. congruence.
  - now rewrite IH.
Qed.

Lemma selectedDocs_after_discard (query : Query) (now : Z)
    (docs : Obj (Obj Document)) :
  history query = Some (js "all") ->
  selectedDocs queryMatchesDoc query now
    (keptPaths (fun d => negb (documentIsExpired d now)) docs) =
  selectedDocs queryMatchesDoc query now docs.
Proof.
  intros Hh. unfold selectedDocs.
  assert (Hc : forall slots, candidates query slots = objValues slots)
    by (intros; unfold candidates; now rewrite Hh).
  induction docs as [|[p slots] docs IH]; simpl; trivial.
  rewrite <- IH, (Hc slots), <- keep_after_discard.
  destruct (keptSlots (fun d => negb (documentIsExpired d now)) slots) as [|kv s] eqn:E.
  - simpl. now destruct (pathSelected query p).
  - cbn [flat_map fst snd]. now rewrite Hc.
Qed.

(** X5.  [discardExpiredDocuments] deletes exactly the documents that have
    expired at the time of the call and leaves the configuration alone; and
    a read with [history: 'all'] and a [limit] that is not negative, at that
    time, returns the same documents after the purge as before it. *)
Theorem discardExpired_purges_only_expired (st : StorageMemory) (clock : Z) :
  wfStore st ->
  _isClosed st = false ->
  exists st',
    discardExpiredDocuments clock st = (Ok tt, st') /\
    wfStore st' /\
    _config st' = _config st /\
    (forall p a,
        lookupDoc p a (_docs st') =
        match lookupDoc p a (_docs st) with
        | Some d => if documentIsExpired d (currentTime clock st) then None else Some d
        | None => None
        end) /\
    (forall q,
        history (cleanUpQuery q) = Some (js "all") ->
        (forall n, limit q = Some n -> 0 <= n) ->
        fst (documents queryMatchesDoc clock q st') =
        fst (documents queryMatchesDoc clock q st)).
Proof.
  intros Hwf Hopen.
  destruct (discardExpiredDocuments_removes_expired st clock Hwf Hopen)
    as (st' & E & Hwf' & Hc & Hl).
  exists st'. repeat (split; trivial).
  intros q Hh Hlim.
  assert (Hst : st' = set_docs (keptPaths
                  (fun d => negb (documentIsExpired d (currentTime clock st)))
                  (_docs st)) st).
  { unfold discardExpiredDocuments, _filterDocs, bind, _assertNotClosed, gets,
      modify in E. rewrite Hopen in E. simpl in E. rewrite Hopen in E.
    injection E as <-. now rewrite (filterPaths_kept _ _ Hwf). }
  rewrite (documents_plain_all queryMatchesDoc st clock q Hwf Hopen) by trivial.
  rewrite (documents_plain_all queryMatchesDoc st' clock q Hwf') by
    first [assumption | subst st'; exact Hopen].
  simpl. subst st'. simpl.
  change (currentTime clock (set_docs _ st)) with (currentTime clock st).
  now rewrite selectedDocs_after_discard.
Qed.

(** X6.  Forget, then read.  After a [forgetDocuments] that went through
    ([history: 'all'], no zero limit), a read with the same query finds
    nothing. *)
Theorem forget_then_read_empty (st : StorageMemory) (clock : Z) (q : Query) :
  wfStore st ->
  _isClosed st = false ->
  history (cleanUpQuery q) = Some (js "all") ->
  zeroLimit (cleanUpQuery q) = false ->
  (forall n, limit q = Some n -> 0 <= n) ->
  exists st',
    forgetDocuments queryMatchesDoc q st = (Ok tt, st') /\
    documents queryMatchesDoc clock q st' = (Ok [], st').
Proof.
  intros Hwf Hopen Hh Hz Hlim.
  set (docs' := keptPaths (fun d => negb (queryMatchesDoc (cleanUpQuery q) d)) (_docs st)).
  exists (set_docs docs' st).
  assert (E : forgetDocuments queryMatchesDoc q st = (Ok tt, set_docs docs' st)).
  { unfold forgetDocuments, _filterDocs, bind, _assertNotClosed, ret, throw, modify.
    rewrite Hopen, Hz, Hh. unfold strEq'. rewrite strEq_refl. simpl.
    rewrite Hopen. now rewrite (filterPaths_kept _ _ Hwf). }
  split; trivial.
  assert (Hwf' : wfStore (set_docs docs' st)) by (apply keptPaths_wf, Hwf).
  rewrite (documents_plain_all queryMatchesDoc _ clock q Hwf' Hopen) by trivial.
  assert (Hnil : selectedDocs queryMatchesDoc (cleanUpQuery q)
                   (currentTime clock (set_docs docs' st)) (_docs (set_docs docs' st)) = []).
  { destruct (selectedDocs _ _ _ _) as [|d l] eqn:Es; trivial.
    assert (Hd : In d (selectedDocs queryMatchesDoc (cleanUpQuery q)
                   (currentTime clock (set_docs docs' st)) (_docs (set_docs docs' st))))
      by (rewrite Es; simpl; auto).
    apply selected_stored in Hd as (L & _ & Hk); trivial.
    apply keepDoc_spec in Hk as [Hm _].
    simpl in L. unfold docs' in L. rewrite (keptPaths_lookup _ _ _ _ Hwf) in L.
    destruct (lookupDoc (path d) (author d) (_docs st)) as [d'|]; [|discriminate].
    destruct (queryMatchesDoc (cleanUpQuery q) d') eqn:Em; simpl in L; [discriminate|].
    injection L as ->. congruence. }
  rewrite Hnil. simpl. unfold byteCut, countCut.
  destruct (limit (cleanUpQuery q)); [rewrite firstn_nil|];
    now destruct (limitBytes (cleanUpQuery q)).
Qed.

End Composition.

Lemma objOwn_objDelete {V} (k k' : jsstring) (o : Obj V) :
  objOwn k' (objDelete k o) = if strEq k k' then None else objOwn k' o.
Proof.
  induction o as [|[k0 v0] o IH]; simpl.
  - now destruct (strEq k k').
  - destruct (strEq k0 k) eqn:E.
    + apply strEq_true in E. subst k0. rewrite IH. now destruct (strEq k k').
    + simpl. rewrite IH. destruct (strEq k0 k') eqn:E'; trivial.
      destruct (strEq k k') eqn:E''; trivial.
      apply strEq_true in E', E''. apply strEq_false in E. congruence.
Qed.

(** X7.  The configuration is a dictionary of its own, under the prototype
    every object has.  A value set under a key is the value read back,
    except under [__proto__], where [setConfig] changes nothing; setting or
    deleting one key leaves what is read under every other key as it was; a
    deleted key, and every key after [deleteAllConfig], reads as [undefined]
    unless it is a name of [Object.prototype], which reads as the inherited
    member; none of the four operations touches a document, and [getConfig]
    changes nothing. *)
Theorem config_roundtrip (st : StorageMemory) (key other content : jsstring) :
  fst (getConfig key (snd (setConfig key content st))) =
    (if strEq key (js "__proto__") then fst (getConfig key st) else Ok (Own content)) /\
  snd (setConfig (js "__proto__") content st) = st /\
  fst (getConfig key (snd (deleteConfig key st))) =
    Ok (if inherited key then Inherited else Undefined) /\
  fst (getConfig other (snd (deleteAllConfig st))) =
    Ok (if inherited other then Inherited else Undefined) /\
  (key <> other ->
   fst (getConfig other (snd (setConfig key content st))) = fst (getConfig other st) /\
   fst (getConfig other (snd (deleteConfig key st))) = fst (getConfig other st)) /\
  _docs (snd (setConfig key content st)) = _docs st /\
  _docs (snd (deleteConfig key st)) = _docs st /\
  _docs (snd (deleteAllConfig st)) = _docs st /\
  snd (getConfig key st) = st.
Proof.
  unfold getConfig, setConfig, deleteConfig, deleteAllConfig, gets, modify,
    objGet, objSet. simpl.
  rewrite !objOwn_objDelete, strEq_refl.
  split; [|split; [|split; [|split; [|split; [|auto]]]]]; trivial.
  - destruct (strEq key (js "__proto__")); simpl; trivial.
    now rewrite objOwn_objPut, strEq_refl.
  - now destruct st.
  - intros Hne. apply strEq_false in Hne. rewrite Hne. split; trivial.
    destruct (strEq key (js "__proto__")); simpl; trivial.
    now rewrite objOwn_objPut, Hne.
Qed.

(** Under the names of [Object.prototype] a new store already answers, and
    [__proto__] cannot be set. *)
Example config_at_inherited_keys :
  fst (getConfig (js "constructor") emptyStore) = Ok Inherited /\
  fst (getConfig (js "constructor") (snd (deleteAllConfig emptyStore))) = Ok Inherited /\
  fst (getConfig (js "__proto__")
         (snd (setConfig (js "__proto__") (js "v") emptyStore))) = Ok Inherited /\
  fst (getConfig (js "constructor")
         (snd (setConfig (js "constructor") (js "v") emptyStore))) = Ok (Own (js "v")) /\
  fst (getConfig (js "k") emptyStore) = Ok Undefined.
Proof. repeat split; reflexivity. Qed.

Section UnknownHistory.
Variable queryMatchesDoc : Query -> Document -> bool.

Lemma pathLoop_unknown_history (query : Query) (now : Z) (docs : Obj (Obj Document))
    (paths : list jsstring) (acc : list Document) :
  strEq' (history query) (js "latest") = false ->
  strEq' (history query) (js "all") = false ->
  (forall p, In p paths -> In p (objKeys docs)) ->
  pathLoop queryMatchesDoc query now docs paths acc =
  match visited query paths with
  | [] => Ok acc
  | _ :: _ => Err ValidationError
  end.
Proof.
  intros H1 H2. induction paths as [|p rest IH]; intros Hp; simpl; trivial.
  destruct (prefixScan query p); trivial.
  - destruct (objOwn p docs) as [slots|] eqn:G.
    + rewrite (slotsAt_own _ _ _ G). unfold docsForPath. now rewrite H1, H2.
    + apply objOwn_None in G. exfalso. apply G, Hp. simpl. auto.
  - apply IH. intros; apply Hp; simpl; auto.
Qed.

Lemma pathsToConsider_members (query : Query) (docs : Obj (Obj Document))
    (paths : list jsstring) :
  inheritedPath query docs = false ->
  pathsToConsider query docs = Some paths ->
  forall p,
    In p paths <->
    In p (objKeys docs) /\
    match qPath query with
    | Some p0 => strEq p0 p = true
    | None => True
    end.
Proof.
  unfold pathsToConsider, inheritedPath, objGet. intros Hni E p.
  assert (Hs : forall l l',
             (if isSome (pathStartsWith query) || isSome (limit query)
              then Some (sortBy strCompare l) else Some l) = Some l' ->
             (In p l' <-> In p l)).
  { intros l l'. destruct (isSome (pathStartsWith query) || isSome (limit query));
      intros El; injection El as <-; [apply sortBy_In|tauto]. }
  destruct (qPath query) as [p0|].
  - destruct (objOwn p0 docs) as [slots0|] eqn:G;
      [|simpl in Hni; rewrite Hni in E; discriminate].
    rewrite (Hs _ _ E). simpl. rewrite strEq_true. apply objOwn_In in G.
    split.
    + intros [<-|[]]. split; trivial.
      change p0 with (fst (p0, slots0)). now apply in_map.
    + intros [_ ->]. auto.
  - rewrite (Hs _ _ E). tauto.
Qed.

Lemma inheritedPath_selects_nothing (query : Query) (docs : Obj (Obj Document))
    (p : jsstring) :
  inheritedPath query docs = true ->
  In p (objKeys docs) -> pathSelected query p = false.
Proof.
  unfold inheritedPath, pathSelected. intros Hni Hp.
  destruct (qPath query) as [p0|]; [|discriminate].
  apply andb_prop in Hni as [Hown _].
  destruct (objOwn p0 docs) eqn:G; [discriminate|].
  destruct (strEq p0 p) eqn:E; trivial.
  apply strEq_true in E. subst p. apply objOwn_None in G. tauto.
Qed.

(** X8.  An unsupported [history] is reported only when the scan reaches a
    path: on an open store, and with no zero limit, [documents] throws a
    [ValidationError] if some stored path is selected by the query's [path]
    and [pathStartsWith], or if the query's [path] names a member of
    [Object.prototype] under which nothing is stored and which passes
    [pathStartsWith]; otherwise it returns the empty list. *)
Theorem documents_unknown_history (st : StorageMemory) (clock : Z) (q : Query) :
  wfStore st ->
  _isClosed st = false ->
  history (cleanUpQuery q) <> Some (js "latest") ->
  history (cleanUpQuery q) <> Some (js "all") ->
  zeroLimit (cleanUpQuery q) = false ->
  ((exists p, In p (objKeys (_docs st)) /\ pathSelected (cleanUpQuery q) p = true) \/
   readsInherited (cleanUpQuery q) (_docs st) = true ->
   documents queryMatchesDoc clock q st = (Err ValidationError, st)) /\
  ((forall p, In p (objKeys (_docs st)) -> pathSelected (cleanUpQuery q) p = false) /\
   readsInherited (cleanUpQuery q) (_docs st) = false ->
   documents queryMatchesDoc clock q st = (Ok [], st)).
Proof.
  intros Hwf Hopen Hl Ha Hz.
  set (query := cleanUpQuery q) in *.
  assert (H1 : strEq' (history query) (js "latest") = false).
  { destruct (history query) as [h|]; simpl; trivial. apply strEq_false. congruence. }
  assert (H2 : strEq' (history query) (js "all") = false).
  { destruct (history query) as [h|]; simpl; trivial. apply strEq_false. congruence. }
  destruct (inheritedPath query (_docs st)) eqn:Hni.
  { (* the query names an inherited path *)
    pose proof (inheritedPath_selects_nothing query (_docs st)) as Hnone.
    destruct (readsInherited query (_docs st)) eqn:Hr.
    - split; [|intros [_ ?]; discriminate]. intros _.
      rewrite (documents_inherited queryMatchesDoc st clock q Hopen Hr).
      fold query. now rewrite Hz, H1, H2.
    - split.
      + intros [(p & Hin & Hp)|?]; [|discriminate].
        rewrite (Hnone p Hni Hin) in Hp. discriminate.
      + intros _. unfold documents, bind, _assertNotClosed, ret, throw, gets.
        rewrite Hopen. fold query. rewrite Hz.
        rewrite (documentsSorted_inherited_skipped queryMatchesDoc query _ _ Hni Hr).
        now destruct (limitBytes query). }
  assert (Hr : readsInherited query (_docs st) = false)
    by (unfold readsInherited; now rewrite Hni).
  rewrite Hr.
  assert (Hrun : documents queryMatchesDoc clock q st =
            match pathsToConsider query (_docs st) with
            | Some paths =>
                match visited query paths with
                | [] => (Ok [], st)
                | _ :: _ => (Err ValidationError, st)
                end
            | None => (Ok [], st)
            end).
  { unfold documents, bind, _assertNotClosed, ret, throw, gets.
    rewrite Hopen. fold query. rewrite Hz. unfold documentsSorted.
    destruct (pathsToConsider query (_docs st)) as [paths|] eqn:Ep.
    - rewrite (pathLoop_unknown_history query _ _ paths [] H1 H2).
      + destruct (visited query paths); trivial. simpl.
        unfold slice0. destruct (limit query) as [n|]; simpl.
        * destruct (n <? 0); rewrite firstn_nil; now destruct (limitBytes query).
        * now destruct (limitBytes query).
      + intros p Hp. now apply (pathsToConsider_members query _ _ Hni Ep) in Hp.
    - now destruct (limitBytes query). }
  rewrite Hrun.
  destruct (pathsToConsider query (_docs st)) as [paths|] eqn:Ep.
  - destruct (pathsToConsider_selection queryMatchesDoc query 0 _ _ Hwf Hni Ep)
      as [Hsorted _].
    assert (Hvis : visited query paths = filter (prefixOk query) paths).
    { apply visited_filter. destruct Hsorted as [[? _]|?]; auto. }
    assert (Hsel : forall p, In p (visited query paths) <->
                             In p (objKeys (_docs st)) /\ pathSelected query p = true).
    { intros p. rewrite Hvis, filter_In, (pathsToConsider_members query _ _ Hni Ep).
      unfold pathSelected. destruct (qPath query) as [p0|].
      - rewrite andb_true_iff. tauto.
      - simpl. tauto. }
    split.
    + intros [(p & Hp)|?]; [|discriminate]. apply Hsel in Hp.
      destruct (visited query paths); [destruct Hp|reflexivity].
    + intros [Hnone _]. destruct (visited query paths) as [|p l]; trivial.
      destruct (proj1 (Hsel p) (or_introl eq_refl)) as [Hin Hp].
      rewrite (Hnone p Hin) in Hp. discriminate.
  - split; trivial. intros [(p & Hin & Hp)|?]; [|discriminate]. exfalso.
    unfold pathsToConsider, objGet in Ep. unfold pathSelected in Hp.
    destruct (qPath query) as [p0|].
    + destruct (objOwn p0 (_docs st)) eqn:G.
      * destruct (isSome (pathStartsWith query) || isSome (limit query)); discriminate.
      * apply andb_true_iff in Hp as [Hp _]. apply strEq_true in Hp. subst p.
        apply objOwn_None in G. tauto.
    + destruct (isSome (pathStartsWith query) || isSome (limit query)); discriminate.
Qed.

End UnknownHistory.

(* ====================================================================== *)
(** ** The answer does not depend on the order of the writes *)

Lemma slot_member (docs : Obj (Obj Document)) (p : jsstring)
    (slots : Obj Document) (x : Document) :
  wfDocs docs ->
  objOwn p docs = Some slots ->
  In x (objValues slots) <-> lookupDoc p (author x) docs = Some x.
Proof.
  intros [ND Hs] G. unfold lookupDoc. rewrite G.
  destruct (Hs p slots (objOwn_In _ _ _ G)) as (_ & NDs & Hown). split.
  - intros Hx. apply in_map_iff in Hx as ([a x'] & E & Hx). simpl in E. subst x'.
    destruct (Hown a x Hx) as [_ ->]. now apply In_objOwn.
  - intros Hx. apply objOwn_In in Hx.
    change x with (snd (author x, x)). now apply in_map.
Qed.

Lemma values_NoDup (p : jsstring) (slots : Obj Document) :
  wfSlots p slots -> NoDup (objValues slots).
Proof.
  intros (_ & ND & Hown). revert ND Hown.
  induction slots as [|[a d] slots IH]; simpl; intros ND Hown; [constructor|].
  inversion ND as [|? ? Ha ND']; subst. constructor.
  - intros Hd. apply in_map_iff in Hd as ([a' d'] & E & Hd). simpl in E. subst d'.
    destruct (Hown a' d (or_intror Hd)) as [_ Ea'].
    destruct (Hown a d (or_introl eq_refl)) as [_ Ea].
    apply Ha. rewrite <- Ea, Ea'. change a' with (fst (a', d)). now apply in_map.
  - apply IH; trivial. intros; apply Hown; auto.
Qed.

(** In a well-formed index a path is a key exactly when it holds a
    document. *)
Lemma own_none_no_lookup (docs : Obj (Obj Document)) (p : jsstring) :
  wfDocs docs ->
  objOwn p docs = None <-> forall a, lookupDoc p a docs = None.
Proof.
  intros [ND Hs]. unfold lookupDoc. split.
  - now intros ->.
  - destruct (objOwn p docs) as [slots|] eqn:G; trivial. intros H. exfalso.
    destruct (Hs p slots (objOwn_In _ _ _ G)) as (Hne & _ & _).
    destruct slots as [|[a d] slots]; [now destruct Hne|].
    specialize (H a). simpl in H. rewrite strEq_refl in H. discriminate.
Qed.

Lemma readsInherited_same_documents (query : Query) (docs1 docs2 : Obj (Obj Document)) :
  wfDocs docs1 -> wfDocs docs2 ->
  (forall p a, lookupDoc p a docs1 = lookupDoc p a docs2) ->
  readsInherited query docs1 = readsInherited query docs2.
Proof.
  intros Hwf1 Hwf2 Hsame. unfold readsInherited, inheritedPath.
  destruct (qPath query) as [p|]; trivial.
  assert (E : isSome (objOwn p docs1) = isSome (objOwn p docs2)).
  { pose proof (own_none_no_lookup docs1 p Hwf1) as H1.
    pose proof (own_none_no_lookup docs2 p Hwf2) as H2.
    destruct (objOwn p docs1), (objOwn p docs2); trivial; exfalso.
    - assert (H : Some o = None); [|discriminate].
      apply H1. intros a. rewrite Hsame. now apply H2.
    - assert (H : Some o = None); [|discriminate].
      apply H2. intros a. rewrite <- Hsame. now apply H1. }
  now rewrite E.
Qed.

Section WriteOrder.
Variable queryMatchesDoc : Query -> Document -> bool.

Lemma candidates_NoDup (query : Query) (p : jsstring) (slots : Obj Document) :
  wfSlots p slots -> NoDup (candidates query slots).
Proof.
  intros Hwf. unfold candidates.
  destruct (strEq' (history query) (js "latest")); [|now apply (values_NoDup p)].
  destruct (latestOf slots); repeat constructor. simpl. tauto.
Qed.

Lemma selectedDocs_NoDup (query : Query) (now : Z) (docs : Obj (Obj Document)) :
  wfDocs docs -> NoDup (selectedDocs queryMatchesDoc query now docs).
Proof.
  unfold selectedDocs. induction docs as [|[p slots] docs IH]; intros Hwf; simpl;
    [constructor|].
  pose proof (wfDocs_tail _ _ Hwf) as Hwf'.
  apply NoDup_app; [| now apply IH |].
  - destruct (pathSelected query p); [|constructor].
    apply NoDup_filter, (candidates_NoDup query p).
    destruct Hwf as [_ Hs]. apply Hs. simpl. auto.
  - intros d Hd Hd'.
    assert (Ep : path d = p).
    { destruct (pathSelected query p); [|destruct Hd].
      apply filter_In in Hd as [Hd _].
      now destruct (candidates_stored query _ p slots d Hwf (or_introl eq_refl) Hd). }
    apply in_flat_map in Hd' as ([p' slots'] & Hin & Hd'). simpl in Hd'.
    destruct (pathSelected query p'); [|destruct Hd'].
    apply filter_In in Hd' as [Hd' _].
    destruct (candidates_stored query _ p' slots' d Hwf' Hin Hd') as [Ep' _].
    destruct Hwf as [ND _]. unfold objKeys in ND. simpl in ND.
    apply NoDup_cons_iff in ND as [Hp _].
    apply Hp. rewrite <- Ep, Ep'. change p' with (fst (p', slots')).
    now apply in_map.
Qed.

Lemma latest_transfer (docs1 docs2 : Obj (Obj Document)) (p : jsstring)
    (slots1 : Obj Document) (d : Document) :
  wfDocs docs1 -> wfDocs docs2 ->
  (forall p a, lookupDoc p a docs1 = lookupDoc p a docs2) ->
  noTies docs1 ->
  objOwn p docs1 = Some slots1 ->
  latestOf slots1 = Some d ->
  exists slots2, objOwn p docs2 = Some slots2 /\ latestOf slots2 = Some d.
Proof.
  intros Hwf1 Hwf2 Hsame Hties G1 Hw.
  pose proof (latestOf_least slots1 d Hw) as [Hin _].
  pose proof (proj1 (slot_member docs1 p slots1 d Hwf1 G1) Hin) as L1.
  pose proof L1 as L2. rewrite Hsame in L2. unfold lookupDoc in L2.
  destruct (objOwn p docs2) as [slots2|] eqn:G2; [|discriminate].
  exists slots2. split; trivial.
  destruct Hwf2 as [ND2 Hs2].
  destruct (Hs2 p slots2 (objOwn_In _ _ _ G2)) as (Hne & _).
  destruct (latestOf_some slots2 Hne) as [w2 Hw2]. rewrite Hw2. f_equal.
  symmetry. apply (latestOf_order_independent slots1 slots2 d w2); trivial.
  - apply NoDup_Permutation.
    + destruct Hwf1 as [_ Hs1]. apply (values_NoDup p), Hs1. now apply objOwn_In.
    + apply (values_NoDup p), Hs2. now apply objOwn_In.
    + intros x. rewrite (slot_member docs1 p slots1 x Hwf1 G1).
      rewrite (slot_member docs2 p slots2 x (conj ND2 Hs2) G2).
      now rewrite Hsame.
  - intros x x' Hx Hx'.
    apply (slot_member docs1 p slots1 _ Hwf1 G1) in Hx, Hx'.
    now apply (Hties p (author x) (author x')).
Qed.

(** X9.  What a read returns depends on which documents are stored, not on
    the order in which they were written: two open stores that hold the same
    document under every path and author give the same answer to every query
    with a known [history] and a [limit] that is not negative (with
    'latest', provided no two documents at a path tie in both timestamp and
    signature). *)
Theorem documents_independent_of_write_order (st1 st2 : StorageMemory) (clock : Z)
    (q : Query) :
  wfStore st1 -> wfStore st2 ->
  _isClosed st1 = false -> _isClosed st2 = false ->
  _now st1 = _now st2 ->
  (forall p a, lookupDoc p a (_docs st1) = lookupDoc p a (_docs st2)) ->
  knownHistory (cleanUpQuery q) ->
  (history (cleanUpQuery q) = Some (js "latest") -> noTies (_docs st1)) ->
  (forall n, limit q = Some n -> 0 <= n) ->
  fst (documents queryMatchesDoc clock q st1) =
  fst (documents queryMatchesDoc clock q st2).
Proof.
  intros Hwf1 Hwf2 Ho1 Ho2 Hnow Hsame Hh Hties Hlim.
  pose proof (readsInherited_same_documents (cleanUpQuery q) _ _ Hwf1 Hwf2 Hsame) as Hri.
  destruct (readsInherited (cleanUpQuery q) (_docs st1)) eqn:Hr1.
  { (* both reads take the inherited member, and end alike *)
    rewrite (documents_inherited queryMatchesDoc st1 clock q Ho1 Hr1).
    now rewrite (documents_inherited queryMatchesDoc st2 clock q Ho2 (eq_sym Hri)). }
  rewrite (documents_plain queryMatchesDoc st1 clock q Hwf1 Ho1 Hh Hlim (fun _ => Hr1)).
  rewrite (documents_plain queryMatchesDoc st2 clock q Hwf2 Ho2 Hh Hlim
             (fun _ => eq_sym Hri)).
  simpl. f_equal. f_equal. f_equal.
  assert (Et : currentTime clock st1 = currentTime clock st2)
    by (unfold currentTime; now rewrite Hnow).
  rewrite Et. set (now := currentTime clock st2). set (query := cleanUpQuery q) in *.
  assert (Hperm : Permutation (selectedDocs queryMatchesDoc query now (_docs st1))
                              (selectedDocs queryMatchesDoc query now (_docs st2))).
  { apply NoDup_Permutation; try now apply selectedDocs_NoDup.
    intros d.
    rewrite (selectedDocs_In queryMatchesDoc query now _ d Hwf1).
    rewrite (selectedDocs_In queryMatchesDoc query now _ d Hwf2).
    destruct Hh as [Hl|Ha].
    - assert (Hties2 : noTies (_docs st2)).
      { intros p a a' x x'. rewrite <- !Hsame. apply (Hties Hl). }
      unfold candidates. rewrite Hl. unfold strEq'. rewrite strEq_refl. split.
      + intros (s1 & G & Hc & Hrest).
        destruct (latestOf s1) as [w|] eqn:Hw; [|destruct Hc].
        destruct Hc as [->|[]].
        destruct (latest_transfer _ (_docs st2) _ s1 d Hwf1 Hwf2 Hsame (Hties Hl) G Hw)
          as (s2 & G2 & Hw2).
        exists s2. rewrite Hw2. simpl. auto.
      + intros (s2 & G & Hc & Hrest).
        destruct (latestOf s2) as [w|] eqn:Hw; [|destruct Hc].
        destruct Hc as [->|[]].
        destruct (latest_transfer _ (_docs st1) _ s2 d Hwf2 Hwf1
                    (fun p a => eq_sym (Hsame p a)) Hties2 G Hw)
          as (s1 & G1 & Hw1).
        exists s1. rewrite Hw1. simpl. auto.
    - split; intros (s & G & Hc & Hrest).
      + assert (L : lookupDoc (path d) (author d) (_docs st1) = Some d)
          by (apply (candidates_all query); eauto).
        rewrite Hsame in L. apply (candidates_all query) in L; trivial.
        destruct L as (s2 & ? & ?). eauto.
      + assert (L : lookupDoc (path d) (author d) (_docs st2) = Some d)
          by (apply (candidates_all query); eauto).
        rewrite <- Hsame in L. apply (candidates_all query) in L; trivial.
        destruct L as (s1 & ? & ?). eauto. }
  apply (sorted_perm_unique (fun a b => sortPathAscAuthorAsc a b <> Gt)).
  - intros a. apply cmp_refl_le, sortPathAscAuthorAsc_antisym.
  - intros a b Ha Hb. apply sortBy_In in Ha, Hb.
    apply (selected_stored queryMatchesDoc) in Ha as [La _], Hb as [Lb _]; trivial.
    now apply (stored_same_key (_docs st1)).
  - apply sortBy_sorted;
      [apply sortPathAscAuthorAsc_antisym|apply sortPathAscAuthorAsc_trans].
  - apply sortBy_sorted;
      [apply sortPathAscAuthorAsc_antisym|apply sortPathAscAuthorAsc_trans].
  - rewrite !sortBy_perm. exact Hperm.
Qed.

End WriteOrder.

(* ====================================================================== *)
(** ** The index after any sequence of calls *)

Section Reachable.
Variable queryMatchesDoc : Query -> Document -> bool.






End Reachable.

(* ====================================================================== *)
(** ** The deleting calls together *)

Lemma keptSlots_keptSlots (f g : Document -> bool) (slots : Obj Document) :
  keptSlots f (keptSlots g slots) = keptSlots (fun d => g d && f d) slots.
Proof.
  unfold keptSlots. induction slots as [|[a d] slots IH]; simpl; trivial.
  destruct (g d); simpl; [destruct (f d)|]; now rewrite IH.
Qed.

Lemma keptPaths_keptPaths (f g : Document -> bool) (docs : Obj (Obj Document)) :
  keptPaths f (keptPaths g docs) = keptPaths (fun d => g d && f d) docs.
Proof.
  induction docs as [|[p slots] docs IH]; simpl; trivial.
  rewrite <- (keptSlots_keptSlots f g slots).
  destruct (keptSlots g slots) as [|kv s]; simpl; trivial.
  now rewrite IH.
Qed.

Lemma keptPaths_ext (f g : Document -> bool) (docs : Obj (Obj Document)) :
  (forall d, f d = g d) -> keptPaths f docs = keptPaths g docs.
Proof.
  intros E. induction docs as [|[p slots] docs IH]; simpl; trivial.
  assert (Es : keptSlots f slots = keptSlots g slots)
    by (apply filter_ext; intros; apply E).
  now rewrite Es, IH.
Qed.

Lemma filterDocs_run (f : Document -> bool) (st : StorageMemory) :
  wfStore st ->
  snd (_filterDocs f st) =
  if _isClosed st then st else set_docs (keptPaths f (_docs st)) st.
Proof.
  intros Hwf. unfold _filterDocs, bind, _assertNotClosed, modify.
  destruct (_isClosed st); simpl; trivial. now rewrite (filterPaths_kept _ _ Hwf).
Qed.

Lemma filterDocs_twice (f g : Document -> bool) (st : StorageMemory) :
  wfStore st ->
  snd (_filterDocs f (snd (_filterDocs g st))) =
  snd (_filterDocs (fun d => g d && f d) st).
Proof.
  intros Hwf.
  rewrite (filterDocs_run f) by now apply filterDocs_wf.
  rewrite !(filterDocs_run _ st Hwf).
  destruct (_isClosed st) eqn:Hc; [now rewrite Hc|]. simpl. rewrite Hc.
  unfold set_docs. simpl. now rewrite keptPaths_keptPaths.
Qed.

Lemma filterDocs_ext (f g : Document -> bool) (st : StorageMemory) :
  wfStore st -> (forall d, f d = g d) ->
  snd (_filterDocs f st) = snd (_filterDocs g st).
Proof.
  intros Hwf E. rewrite !filterDocs_run by trivial.
  now rewrite (keptPaths_ext f g _ E).
Qed.

Lemma currentTime_filterDocs (f : Document -> bool) (clock : Z) (st : StorageMemory) :
  currentTime clock (snd (_filterDocs f st)) = currentTime clock st.
Proof.
  unfold _filterDocs, bind, _assertNotClosed, modify.
  now destruct (_isClosed st).
Qed.

Lemma discard_as_filter (clock : Z) (st : StorageMemory) :
  snd (discardExpiredDocuments clock st) =
  snd (_filterDocs (fun doc => negb (documentIsExpired doc (currentTime clock st))) st).
Proof.
  unfold discardExpiredDocuments, _filterDocs, bind, _assertNotClosed, gets, modify.
  now destruct (_isClosed st) eqn:Hc; simpl; rewrite ?Hc.
Qed.

Section Purges.
Variable queryMatchesDoc : Query -> Document -> bool.

Lemma forget_as_filter (q : Query) (st : StorageMemory) :
  snd (forgetDocuments queryMatchesDoc q st) =
  if zeroLimit (cleanUpQuery q) || negb (strEq' (history (cleanUpQuery q)) (js "all"))
  then st
  else snd (_filterDocs (fun doc => negb (queryMatchesDoc (cleanUpQuery q) doc)) st).
Proof.
  unfold forgetDocuments, _filterDocs, bind, _assertNotClosed, ret, throw, modify.
  destruct (_isClosed st) eqn:Hc; simpl.
  - now destruct (zeroLimit _ || negb _).
  - destruct (zeroLimit (cleanUpQuery q)); simpl; trivial.
    destruct (strEq' (history (cleanUpQuery q)) (js "all")); simpl; trivial.
    now rewrite Hc.
Qed.

Lemma currentTime_mono (st : StorageMemory) (clock later : Z) :
  clock <= later -> currentTime clock st <= currentTime later st.
Proof.
  intros H. unfold currentTime. destruct (_now st) as [n|]; [|lia].
  destruct (n =? 0); lia.
Qed.

Lemma expired_later (d : Document) (t1 t2 : Z) :
  t1 <= t2 ->
  negb (documentIsExpired d t1) && negb (documentIsExpired d t2) =
  negb (documentIsExpired d t2).
Proof.
  intros H. unfold documentIsExpired. destruct (deleteAfter d) as [t|]; trivial.
  destruct (Z.ltb_spec t t1), (Z.ltb_spec t t2); trivial; lia.
Qed.

(** X11.  The two deleting calls do not interfere.  Forgetting and then
    discarding the expired documents leaves the store that discarding and
    then forgetting leaves, when [discardExpiredDocuments] reads the same
    time in both orders; forgetting a second time with the same query changes
    nothing more; and a purge after an earlier purge, the clock not having
    gone back, leaves what the later purge alone would have left (so at an
    unchanged reading of the clock a second purge changes nothing).  This
    holds whether the calls succeed or throw. *)
Theorem deleting_calls_commute (st : StorageMemory) (clock later : Z) (q : Query) :
  wfStore st ->
  clock <= later ->
  snd (discardExpiredDocuments later (snd (forgetDocuments queryMatchesDoc q st))) =
  snd (forgetDocuments queryMatchesDoc q (snd (discardExpiredDocuments later st))) /\
  snd (forgetDocuments queryMatchesDoc q (snd (forgetDocuments queryMatchesDoc q st))) =
  snd (forgetDocuments queryMatchesDoc q st) /\
  snd (discardExpiredDocuments later (snd (discardExpiredDocuments clock st))) =
  snd (discardExpiredDocuments later st).
Proof.
  intros Hwf Hclock. pose proof (currentTime_mono st clock later Hclock) as Hmono.
  rewrite !forget_as_filter, !discard_as_filter.
  destruct (zeroLimit (cleanUpQuery q) ||
            negb (strEq' (history (cleanUpQuery q)) (js "all"))).
  - split; trivial. split; trivial.
    rewrite currentTime_filterDocs, filterDocs_twice by trivial.
    apply filterDocs_ext; trivial. intros d. now apply expired_later.
  - rewrite !currentTime_filterDocs, !filterDocs_twice by trivial.
    split; [|split]; apply filterDocs_ext; trivial; intros d.
    + apply andb_comm.
    + now destruct (negb _).
    + now apply expired_later.
Qed.

End Purges.

(* ====================================================================== *)
(** ** The theorems on concrete stores *)

Lemma tiedStoreReversed_wf : wfStore tiedStoreReversed.
Proof. unfold tiedStoreReversed. apply upsert_wf, upsert_wf, emptyStore_wf. Qed.

Lemma ephemeralStore_wf : wfStore ephemeralStore.
Proof. unfold ephemeralStore. apply upsert_wf, upsert_wf, emptyStore_wf. Qed.

Lemma suzy_is_not_matt : suzy <> matt.
Proof. intros E. apply strEq_true in E. discriminate E. Qed.

Lemma tiedStore_same_documents (p a : jsstring) :
  lookupDoc p a (_docs tiedStore) = lookupDoc p a (_docs tiedStoreReversed).
Proof.
  change (_docs tiedStore)
    with [(js "/wiki", [(suzy, wikiBySuzy); (matt, wikiByMatt)])].
  change (_docs tiedStoreReversed)
    with [(js "/wiki", [(matt, wikiByMatt); (suzy, wikiBySuzy)])].
  unfold lookupDoc. cbn [objOwn].
  destruct (strEq (js "/wiki") p); trivial. cbn [objOwn].
  destruct (strEq suzy a) eqn:E1, (strEq matt a) eqn:E2; trivial.
  apply strEq_true in E1, E2. destruct suzy_is_not_matt. congruence.
Qed.

Lemma tiedStore_noTies : noTies (_docs tiedStore).
Proof.
  intros p a a' d d'.
  change (_docs tiedStore)
    with [(js "/wiki", [(suzy, wikiBySuzy); (matt, wikiByMatt)])].
  unfold lookupDoc. cbn [objOwn].
  destruct (strEq (js "/wiki") p); [|discriminate]. cbn [objOwn].
  destruct (strEq suzy a), (strEq suzy a'), (strEq matt a), (strEq matt a');
    intros L L'; try discriminate L; try discriminate L';
    injection L as <-; injection L' as <-; trivial;
    intros _ S; discriminate S.
Qed.

(** X1 on the store where two authors wrote [/wiki] at the same time. *)
Lemma documents_is_plain_selection_witness :
  wfStore tiedStore /\
  _isClosed tiedStore = false /\
  knownHistory (cleanUpQuery queryLatest) /\
  (forall n, limit queryLatest = Some n -> 0 <= n) /\
  (history (cleanUpQuery queryLatest) = Some (js "latest") ->
   readsInherited (cleanUpQuery queryLatest) (_docs tiedStore) = false) /\
  let query := cleanUpQuery queryLatest in
  let now := currentTime 0 tiedStore in
  let selected := selectedDocs specQueryMatchesDoc query now (_docs tiedStore) in
  documents specQueryMatchesDoc 0 queryLatest tiedStore =
    (Ok (byteCut query (countCut query (sortBy sortPathAscAuthorAsc selected))),
     tiedStore) /\
  (history query = Some (js "all") ->
   forall d,
     In d selected <->
     lookupDoc (path d) (author d) (_docs tiedStore) = Some d /\
     pathSelected query (path d) = true /\
     specQueryMatchesDoc query d = true /\ documentIsExpired d now = false) /\
  (history query = Some (js "latest") ->
   forall d,
     In d selected <->
     (exists slots,
         objOwn (path d) (_docs tiedStore) = Some slots /\ latestOf slots = Some d) /\
     pathSelected query (path d) = true /\
     specQueryMatchesDoc query d = true /\ documentIsExpired d now = false).
Proof.
  split; [exact tiedStore_wf|]. split; [reflexivity|].
  split; [left; reflexivity|]. split; [intros n E; discriminate E|].
  split; [intros _; reflexivity|].
  apply (documents_is_plain_selection specQueryMatchesDoc tiedStore 0 queryLatest).
  - exact tiedStore_wf.
  - reflexivity.
  - left; reflexivity.
  - intros n E; discriminate E.
  - intros _; reflexivity.
Defined.

(** C1 at the query for the path [constructor], where the read throws. *)
Lemma documents_latest_winner_witness :
  wfStore tiedStore /\
  _isClosed tiedStore = false /\
  history queryConstructorLatest = Some (js "latest") /\
  (forall n, limit queryConstructorLatest = Some n -> 0 <= n) /\
  (readsInherited (cleanUpQuery queryConstructorLatest) (_docs tiedStore) = true ->
   documents specQueryMatchesDoc 0 queryConstructorLatest tiedStore =
     (if zeroLimit (cleanUpQuery queryConstructorLatest)
      then Ok [] else Err TypeError, tiedStore)).
Proof.
  split; [exact tiedStore_wf|]. split; [reflexivity|]. split; [reflexivity|].
  split; [intros n E; discriminate E|].
  apply (documents_latest_winner specQueryMatchesDoc tiedStore 0 queryConstructorLatest).
  - exact tiedStore_wf.
  - reflexivity.
  - reflexivity.
  - intros n E; discriminate E.
Defined.

(** The same query returns nothing with [history: 'all'], and a query for a
    path that is neither stored nor inherited returns nothing with either. *)
Example inherited_path_latest_throws :
  documents specQueryMatchesDoc 0 queryConstructorLatest tiedStore =
    (Err TypeError, tiedStore) /\
  documents specQueryMatchesDoc 0 queryConstructorLatest emptyStore =
    (Err TypeError, emptyStore) /\
  documents specQueryMatchesDoc 0 queryConstructorAll tiedStore = (Ok [], tiedStore) /\
  documents specQueryMatchesDoc 0
    (mkQuery (Some (js "/nowhere")) None None None None None None None
             (Some (js "latest")) None None) tiedStore = (Ok [], tiedStore).
Proof. repeat split; reflexivity. Qed.

(** X2 on the store of the 3-, 0- and 5-byte documents, with a budget of
    3. *)
Lemma documents_within_limits_witness :
  documents specQueryMatchesDoc 0 queryBytes3 threeStore = (Ok [docSnowman], threeStore) /\
  (forall n, limit queryBytes3 = Some n -> 0 <= n ->
             Z.of_nat (List.length [docSnowman]) <= n) /\
  (forall b, limitBytes queryBytes3 = Some b -> 0 <= b -> sumBytes [docSnowman] <= b).
Proof.
  split; [reflexivity|].
  exact (documents_within_limits specQueryMatchesDoc threeStore threeStore 0
           queryBytes3 [docSnowman] eq_refl).
Defined.

(** X3: Suzy writes [/wiki] twice. *)
Lemma upsert_overwrites_witness :
  path wikiBySuzy = path wikiBySuzyLater /\
  author wikiBySuzy = author wikiBySuzyLater /\
  snd (_upsertDocument wikiBySuzyLater (snd (_upsertDocument wikiBySuzy tiedStore))) =
  snd (_upsertDocument wikiBySuzyLater tiedStore).
Proof.
  split; [reflexivity|]. split; [reflexivity|].
  exact (upsert_overwrites wikiBySuzy wikiBySuzyLater tiedStore eq_refl eq_refl).
Defined.

Example second_write_replaces_first :
  lookupDoc (js "/wiki") suzy
    (_docs (snd (_upsertDocument wikiBySuzyLater tiedStore))) = Some wikiBySuzyLater /\
  documents specQueryMatchesDoc 0 queryAll (snd (_upsertDocument wikiBySuzyLater tiedStore)) =
    (Ok [wikiByMatt; wikiBySuzyLater], snd (_upsertDocument wikiBySuzyLater tiedStore)).
Proof. split; reflexivity. Qed.


(** X5 on a store that holds a document expiring at time 50, at clock 1
    (time 1000). *)
Lemma discardExpired_purges_only_expired_witness :
  wfStore ephemeralStore /\
  _isClosed ephemeralStore = false /\
  exists st',
    discardExpiredDocuments 1 ephemeralStore = (Ok tt, st') /\
    wfStore st' /\
    _config st' = _config ephemeralStore /\
    (forall p a,
        lookupDoc p a (_docs st') =
        match lookupDoc p a (_docs ephemeralStore) with
        | Some d =>
            if documentIsExpired d (currentTime 1 ephemeralStore) then None else Some d
        | None => None
        end) /\
    (forall q,
        history (cleanUpQuery q) = Some (js "all") ->
        (forall n, limit q = Some n -> 0 <= n) ->
        fst (documents specQueryMatchesDoc 1 q st') =
        fst (documents specQueryMatchesDoc 1 q ephemeralStore)).
Proof.
  split; [exact ephemeralStore_wf|]. split; [reflexivity|].
  exact (discardExpired_purges_only_expired specQueryMatchesDoc ephemeralStore 1
           ephemeralStore_wf eq_refl).
Defined.

(** The expired document is hidden from a read before the purge and gone
    from the index after it; its path goes with it. *)
Example expired_document_hidden_then_purged :
  documents specQueryMatchesDoc 1 queryAll ephemeralStore = (Ok [docHello], ephemeralStore) /\
  objKeys (_docs ephemeralStore) = [js "/c"; js "/tmp"] /\
  objKeys (_docs (snd (discardExpiredDocuments 1 ephemeralStore))) = [js "/c"] /\
  documents specQueryMatchesDoc 0 queryAll ephemeralStore =
    (Ok [docHello; docEphemeral], ephemeralStore).
Proof. repeat split; reflexivity. Qed.

(** X6: everything in the store of [/wiki] is forgotten. *)
Lemma forget_then_read_empty_witness :
  wfStore tiedStore /\
  _isClosed tiedStore = false /\
  history (cleanUpQuery queryAll) = Some (js "all") /\
  zeroLimit (cleanUpQuery queryAll) = false /\
  (forall n, limit queryAll = Some n -> 0 <= n) /\
  exists st',
    forgetDocuments specQueryMatchesDoc queryAll tiedStore = (Ok tt, st') /\
    documents specQueryMatchesDoc 0 queryAll st' = (Ok [], st').
Proof.
  split; [exact tiedStore_wf|]. split; [reflexivity|]. split; [reflexivity|].
  split; [reflexivity|]. split; [intros n E; discriminate E|].
  apply (forget_then_read_empty specQueryMatchesDoc tiedStore 0 queryAll).
  - exact tiedStore_wf.
  - reflexivity.
  - reflexivity.
  - reflexivity.
  - intros n E; discriminate E.
Defined.

(** X8 with [history: 'newest'] on the store of [/wiki]. *)
Lemma documents_unknown_history_witness :
  wfStore tiedStore /\
  _isClosed tiedStore = false /\
  history (cleanUpQuery queryNewest) <> Some (js "latest") /\
  history (cleanUpQuery queryNewest) <> Some (js "all") /\
  zeroLimit (cleanUpQuery queryNewest) = false /\
  ((exists p, In p (objKeys (_docs tiedStore)) /\
              pathSelected (cleanUpQuery queryNewest) p = true) \/
   readsInherited (cleanUpQuery queryNewest) (_docs tiedStore) = true ->
   documents specQueryMatchesDoc 0 queryNewest tiedStore =
     (Err ValidationError, tiedStore)) /\
  ((forall p, In p (objKeys (_docs tiedStore)) ->
              pathSelected (cleanUpQuery queryNewest) p = false) /\
   readsInherited (cleanUpQuery queryNewest) (_docs tiedStore) = false ->
   documents specQueryMatchesDoc 0 queryNewest tiedStore = (Ok [], tiedStore)).
Proof.
  split; [exact tiedStore_wf|]. split; [reflexivity|].
  split; [intros E; cbv in E; discriminate E|].
  split; [intros E; cbv in E; discriminate E|].
  split; [reflexivity|].
  apply (documents_unknown_history specQueryMatchesDoc tiedStore 0 queryNewest).
  - exact tiedStore_wf.
  - reflexivity.
  - intros E; cbv in E; discriminate E.
  - intros E; cbv in E; discriminate E.
  - reflexivity.
Defined.

(** The unknown value throws where there is a path to scan, be it a stored
    one or, on an empty store, an inherited one; it passes unnoticed where
    there is none. *)
Example unknown_history_throws_only_on_a_scan :
  documents specQueryMatchesDoc 0 queryNewest tiedStore = (Err ValidationError, tiedStore) /\
  documents specQueryMatchesDoc 0 queryNewest emptyStore = (Ok [], emptyStore) /\
  documents specQueryMatchesDoc 0 queryConstructorNewest emptyStore =
    (Err ValidationError, emptyStore).
Proof. repeat split; reflexivity. Qed.

(** X9 on the two orders of the writes to [/wiki]. *)
Lemma documents_independent_of_write_order_witness :
  wfStore tiedStore /\ wfStore tiedStoreReversed /\
  _isClosed tiedStore = false /\ _isClosed tiedStoreReversed = false /\
  _now tiedStore = _now tiedStoreReversed /\
  (forall p a, lookupDoc p a (_docs tiedStore) = lookupDoc p a (_docs tiedStoreReversed)) /\
  knownHistory (cleanUpQuery queryLatest) /\
  (history (cleanUpQuery queryLatest) = Some (js "latest") -> noTies (_docs tiedStore)) /\
  (forall n, limit queryLatest = Some n -> 0 <= n) /\
  fst (documents specQueryMatchesDoc 0 queryLatest tiedStore) =
  fst (documents specQueryMatchesDoc 0 queryLatest tiedStoreReversed).
Proof.
  split; [exact tiedStore_wf|]. split; [exact tiedStoreReversed_wf|].
  split; [reflexivity|]. split; [reflexivity|]. split; [reflexivity|].
  split; [exact tiedStore_same_documents|]. split; [left; reflexivity|].
  split; [intros _; exact tiedStore_noTies|]. split; [intros n E; discriminate E|].
  apply (documents_independent_of_write_order specQueryMatchesDoc
           tiedStore tiedStoreReversed 0 queryLatest).
  - exact tiedStore_wf.
  - exact tiedStoreReversed_wf.
  - reflexivity.
  - reflexivity.
  - reflexivity.
  - exact tiedStore_same_documents.
  - left; reflexivity.
  - intros _; exact tiedStore_noTies.
  - intros n E; discriminate E.
Defined.

(** The property order of the index differs, the answers do not. *)
Example write_order_shows_only_in_the_index :
  _docs tiedStore <> _docs tiedStoreReversed /\
  documents specQueryMatchesDoc 0 queryAll tiedStoreReversed =
    (Ok [wikiByMatt; wikiBySuzy], tiedStoreReversed) /\
  documents specQueryMatchesDoc 0 queryLatest tiedStoreReversed =
    (Ok [wikiByMatt], tiedStoreReversed).
Proof. split; [intros E; cbv in E; discriminate E|split; reflexivity]. Qed.

(** X11 on the store that holds an expiring document, purged at clock 0
    (nothing has expired) and again at clock 1. *)
Lemma deleting_calls_commute_witness :
  wfStore ephemeralStore /\
  0 <= 1 /\
  snd (discardExpiredDocuments 1
         (snd (forgetDocuments specQueryMatchesDoc queryAll ephemeralStore))) =
  snd (forgetDocuments specQueryMatchesDoc queryAll
         (snd (discardExpiredDocuments 1 ephemeralStore))) /\
  snd (forgetDocuments specQueryMatchesDoc queryAll
         (snd (forgetDocuments specQueryMatchesDoc queryAll ephemeralStore))) =
  snd (forgetDocuments specQueryMatchesDoc queryAll ephemeralStore) /\
  snd (discardExpiredDocuments 1 (snd (discardExpiredDocuments 0 ephemeralStore))) =
  snd (discardExpiredDocuments 1 ephemeralStore).
Proof.
  split; [exact ephemeralStore_wf|]. split; [lia|].
  apply (deleting_calls_commute specQueryMatchesDoc ephemeralStore 0 1 queryAll).
  - exact ephemeralStore_wf.
  - lia.
Defined.

(** The second purge, at a later time, does delete more than the first. *)
Example later_purge_deletes_more :
  objKeys (_docs (snd (discardExpiredDocuments 0 ephemeralStore))) = [js "/c"; js "/tmp"] /\
  objKeys (_docs (snd (discardExpiredDocuments 1
                         (snd (discardExpiredDocuments 0 ephemeralStore))))) = [js "/c"].
Proof. split; reflexivity. Qed.
